(** * monitor-console.py: the EC2 console-log monitor

    A shallow embedding of [monitor-console.py] and the properties of its
    poll loop.  The script is a single module: three output helpers
    ([out_to_file], [out_to_print], [out_to_s3]) and a [while True] loop
    that lists the tagged instances, fetches each console log and hands
    the new ones to the helpers.

    The AWS services, the file system and the terminal are outside the
    script.  They are modelled as a [world]: for every call the script
    makes, the world decides from the history of the run so far whether
    the call returns (and what) or raises.  Every theorem quantifies over
    all worlds. *)

From Stdlib Require Import Ascii String ZArith.
From stdpp Require Import base option list strings pretty gmap.

Open Scope string_scope.
Open Scope list_scope.

(** ** Python values *)

(** [datetime.datetime] as boto3 returns it for ["Timestamp"]: an aware
    datetime whose zone is UTC.  Two such values are [==] exactly when all
    their fields agree. *)
Record datetime := mk_datetime {
  year : N; month : N; day : N;
  hour : N; minute : N; second : N;
  microsecond : N
}.

Global Instance datetime_eq_dec : EqDecision datetime.
Proof. solve_decision. Defined.

(** The character of the last decimal digit of [n]. *)
Definition digit_char (n : N) : ascii :=
  ascii_of_N (48 + n `mod` 10).

(** The last [w] decimal digits of [n], written in front of [acc]. *)
Fixpoint fixed_digits (w : nat) (n : N) (acc : string) : string :=
  match w with
  | 0 => acc
  | S w' => fixed_digits w' (n `div` 10) (String (digit_char n) acc)
  end.

(** ["%0{w}d" % n]: [w] digits with zeros on the left when [n] fits in
    [w] digits, all the digits of [n] otherwise. *)
Definition zfill (w : nat) (n : N) : string :=
  if decide (n < 10 ^ N.of_nat w)%N then fixed_digits w n "" else pretty n.

Definition newline : string := String (ascii_of_nat 10) "".

(** [str(timestamp)], which is what an f-string [{timestamp}] inserts:
    [isoformat(sep=' ')] of an aware UTC datetime.  The fraction is printed
    only when [microsecond] is not zero. *)
Definition datetime_str (t : datetime) : string :=
  zfill 4 (year t) +:+ "-" +:+ zfill 2 (month t) +:+ "-" +:+ zfill 2 (day t)
  +:+ " " +:+ zfill 2 (hour t) +:+ ":" +:+ zfill 2 (minute t)
  +:+ ":" +:+ zfill 2 (second t)
  +:+ (if decide (microsecond t = 0%N) then "" else "." +:+ zfill 6 (microsecond t))
  +:+ "+00:00".

(** One [strftime] directive (the character after [%]). *)
Definition strftime_directive (c : ascii) (t : datetime) : string :=
  if decide (c = "Y"%char) then zfill 4 (year t)
  else if decide (c = "m"%char) then zfill 2 (month t)
  else if decide (c = "d"%char) then zfill 2 (day t)
  else if decide (c = "H"%char) then zfill 2 (hour t)
  else if decide (c = "M"%char) then zfill 2 (minute t)
  else if decide (c = "S"%char) then zfill 2 (second t)
  else if decide (c = "f"%char) then zfill 6 (microsecond t)
  else if decide (c = "%"%char) then "%"
  else String "%" (String c "").

(** [timestamp.strftime(fmt)]: directives are expanded, every other
    character is copied. *)
Fixpoint strftime (fmt : string) (t : datetime) : string :=
  match fmt with
  | "" => ""
  | String c rest =>
      match rest with
      | String d rest' =>
          if decide (c = "%"%char)
          then strftime_directive d t +:+ strftime rest' t
          else String c (strftime rest t)
      | "" => String c ""
      end
  end.

(** The exceptions the script can meet are instances of [Exception]; only
    their message [str(e)] is ever used. *)
Definition exn := string.

Inductive result (A : Type) :=
| Ok (a : A)
| Err (e : exn).
Global Arguments Ok {A} a.
Global Arguments Err {A} e.

(** ** The data of the two EC2 calls *)

(** An element of [reservation["Instances"]]. *)
Record instance := mk_instance { InstanceId : string }.

(** An element of [describe_instances(...)["Reservations"]]. *)
Record reservation := mk_reservation { Instances : list instance }.

(** The dictionary [get_console_output] returns: ["Timestamp"] is always
    there, ["Output"] may be missing. *)
Record response := mk_response {
  Timestamp : datetime;
  Output : option string
}.

(** The parsed command line ([args]).  [quiet] only sets the level of
    the [logging] module, which decides what of the log is displayed;
    the history records every logging call with its level. *)
Record Args := mk_args {
  tag : string;
  region : string;
  bucket : string;
  interval : Z;
  file : bool;
  print : bool;
  quiet : bool
}.

(** ** What the script does to the outside *)

Inductive level := DEBUG | INFO | WARNING | ERROR.

Global Instance level_eq_dec : EqDecision level.
Proof. solve_decision. Defined.

Inductive event :=
| Logging (lvl : level) (msg : string)
| LoggingInstances (instances : list instance)
| DescribeInstances (tag_key : string)
| GetConsoleOutput (instance_id : string)
| PutObject (Bucket Key Body : string)
| StdoutLine (text : string)
| FileOpen (filename : string)
| FilePrint (filename text : string)
| Sleep (seconds : Z).

(** Every event is recorded with the instance the loop is visiting when
    it happens ([None] outside the inner loop). *)
Record entry := mk_entry {
  scope : option string;
  ev : event
}.

(** The outside world: each call is answered from the history of the run. *)
Record world := mk_world {
  ec2_describe_instances : list entry → string → result (list reservation);
  ec2_get_console_output : list entry → string → result response;
  s3_put_object : list entry → string → string → string → result unit;
  fs_open : list entry → string → result unit;
  fs_print : list entry → string → string → result unit
}.

(** ** Program state *)

(** [last_update] is the module-level dictionary; [files] and [objects]
    are the parts of the file system and of S3 the script writes;
    [trace] is the history, oldest entry first. *)
Record state := mk_state {
  last_update : gmap string datetime;
  files : gmap string string;
  objects : gmap (string * string) string;
  trace : list entry
}.

Definition initial_state : state :=
  {| last_update := ∅; files := ∅; objects := ∅; trace := [] |}.

(** A computation either returns or leaves with an uncaught exception. *)
Inductive outcome (A : Type) :=
| Return (a : A) (s : state)
| Raise (e : exn) (s : state).
Global Arguments Return {A} a s.
Global Arguments Raise {A} e s.

Definition M (A : Type) : Type := state → outcome A.

Definition ret {A} (a : A) : M A := λ s, Return a s.

Definition bind {A B} (m : M A) (k : A → M B) : M B :=
  λ s, match m s with
       | Return a s' => k a s'
       | Raise e s' => Raise e s'
       end.

Notation "'let!' x ':=' m 'in' k" := (bind m (λ x, k))
  (at level 10, x name, m at level 100, k at level 200).
Notation "m '>>' k" := (bind m (λ _, k))
  (at level 100, k at level 200, right associativity).

(** [try: m except Exception as e: h e]. *)
Definition try_except {A} (m : M A) (h : exn → M A) : M A :=
  λ s, match m s with
       | Return a s' => Return a s'
       | Raise e s' => h e s'
       end.

Definition final {A} (o : outcome A) : state :=
  match o with
  | Return _ s => s
  | Raise _ s => s
  end.

Definition returns {A} (o : outcome A) : bool :=
  match o with
  | Return _ _ => true
  | Raise _ _ => false
  end.

(** ** Calls to the outside *)

Section Script.
Variable w : world.
Variable args : Args.

(** Record one event in the history. *)
Definition emit (sc : option string) (e : event) : M unit :=
  λ s, Return tt
    {| last_update := last_update s; files := files s;
       objects := objects s; trace := trace s ++ [mk_entry sc e] |}.

(** Answer of the world to a call made now. *)
Definition ask {A} (q : world → list entry → result A) : M A :=
  λ s, match q w (trace s) with
       | Ok a => Return a s
       | Err e => Raise e s
       end.

Definition logging (sc : option string) (lvl : level) (msg : string) : M unit :=
  emit sc (Logging lvl msg).

(** The longest sleep, in seconds: [time.sleep] keeps the length in
    nanoseconds in a signed 64-bit integer, and [(2 ** 63 - 1) // 10 ** 9]
    is 9223372036. *)
Definition max_sleep : Z := 9223372036.

(** [time.sleep(secs)] for an [int]: a length that does not fit, on
    either side, is an [OverflowError]; one that fits and is negative is
    a [ValueError]. *)
Definition time_sleep (secs : Z) : M unit :=
  if decide (secs < - max_sleep ∨ max_sleep < secs)%Z
  then λ s, Raise "timestamp too large to convert to C _PyTime_t" s
  else if decide (secs < 0)%Z
  then λ s, Raise "sleep length must be non-negative" s
  else emit None (Sleep secs).

(** [ec2.describe_instances(Filters=filters)["Reservations"]]. *)
Definition describe_instances : M (list reservation) :=
  emit None (DescribeInstances (tag args)) >>
  ask (λ w h, ec2_describe_instances w h (tag args)).

(** [ec2.get_console_output(InstanceId=instanceId)]. *)
Definition get_console_output (instanceId : string) : M response :=
  emit (Some instanceId) (GetConsoleOutput instanceId) >>
  ask (λ w h, ec2_get_console_output w h instanceId).

Definition store_object (Bucket Key Body : string) : M unit :=
  λ s, Return tt
    {| last_update := last_update s; files := files s;
       objects := <[(Bucket, Key) := Body]> (objects s); trace := trace s |}.

(** [s3.put_object(Bucket=..., Key=..., Body=...)]. *)
Definition put_object (sc : option string) (Bucket Key Body : string) : M unit :=
  emit sc (PutObject Bucket Key Body) >>
  ask (λ w h, s3_put_object w h Bucket Key Body) >>
  store_object Bucket Key Body.

Definition set_file (filename content : string) : M unit :=
  λ s, Return tt
    {| last_update := last_update s; files := <[filename := content]> (files s);
       objects := objects s; trace := trace s |}.

Definition get_file (filename : string) : M string :=
  λ s, Return (default "" (files s !! filename)) s.

(** [open(filename, "w")]: the file is created or truncated. *)
Definition open_w (sc : option string) (filename : string) : M unit :=
  emit sc (FileOpen filename) >>
  ask (λ w h, fs_open w h filename) >>
  set_file filename "".

(** [print(text, file=outfile)]: [text] and a newline are appended. *)
Definition print_to_file (sc : option string) (filename text : string) : M unit :=
  emit sc (FilePrint filename text) >>
  ask (λ w h, fs_print w h filename text) >>
  let! old := get_file filename in
  set_file filename (old +:+ text +:+ newline).

(** [print(text)] on standard output.  Standard output is taken to
    accept every line: a closed pipe or a stream that cannot encode the
    text would raise here. *)
Definition print_stdout (sc : option string) (text : string) : M unit :=
  emit sc (StdoutLine text).

Definition set_last_update (instanceId : string) (timestamp : datetime) : M unit :=
  λ s, Return tt
    {| last_update := <[instanceId := timestamp]> (last_update s);
       files := files s; objects := objects s; trace := trace s |}.

Definition get_last_update : M (gmap string datetime) :=
  λ s, Return (last_update s) s.

(** ** The three output helpers *)

Definition out_to_file (instanceId : string) (timestamp : datetime)
    (output : string) : M unit :=
  let filename := instanceId +:+ "_" +:+ strftime "%Y-%m-%dT%H%M%S" timestamp in
  open_w (Some instanceId) filename >>
  logging (Some instanceId) INFO ("Writing output to file " +:+ filename) >>
  print_to_file (Some instanceId) filename output.

Definition out_to_print (instanceId : string) (timestamp : datetime)
    (output : string) : M unit :=
  print_stdout (Some instanceId) "====================================" >>
  print_stdout (Some instanceId) ("Instance ID: " +:+ instanceId) >>
  print_stdout (Some instanceId) ("Timestamp: " +:+ datetime_str timestamp) >>
  print_stdout (Some instanceId) "------------------------------------" >>
  print_stdout (Some instanceId) output.

Definition out_to_s3 (bucket instanceId : string) (timestamp : datetime)
    (output : string) : M unit :=
  let key := instanceId +:+ "/" +:+ datetime_str timestamp in
  logging (Some instanceId) INFO
    ("Writing key " +:+ key +:+ " to " +:+ "S3 bucket " +:+ bucket) >>
  try_except
    (put_object (Some instanceId) bucket key output)
    (λ e, logging (Some instanceId) ERROR
            ("Cannot put object to S3 bucket" +:+ bucket +:+ ":" +:+ e)).

(** ** The poll loop *)

(** [instanceId in last_update and last_update[instanceId] == timestamp]. *)
Definition no_updates (last : gmap string datetime) (instanceId : string)
    (timestamp : datetime) : bool :=
  match last !! instanceId with
  | Some seen => bool_decide (seen = timestamp)
  | None => false
  end.

Definition when (b : bool) (m : M unit) : M unit :=
  if b then m else ret tt.

(** The body of [for instance in instances]. *)
Definition visit_instance (inst : instance) : M unit :=
  let instanceId := InstanceId inst in
  logging (Some instanceId) INFO
    ("Retrieving console log for instance " +:+ instanceId) >>
  let! fetched :=
    try_except
      (let! response := get_console_output instanceId in
       ret (Some response))
      (λ e, logging (Some instanceId) ERROR
              ("Cannot retrieve log for instance " +:+ instanceId +:+ ":" +:+ e) >>
            ret None) in
  match fetched with
  | None => ret tt
  | Some response =>
      let timestamp := Timestamp response in
      let! last := get_last_update in
      if no_updates last instanceId timestamp then
        logging (Some instanceId) INFO
          ("No updates since " +:+ datetime_str timestamp)
      else
        logging (Some instanceId) INFO
          ("Console updated " +:+ datetime_str timestamp) >>
        set_last_update instanceId (Timestamp response) >>
        match Output response with
        | Some output =>
            out_to_s3 (bucket args) instanceId timestamp output >>
            when (print args) (out_to_print instanceId timestamp output) >>
            when (file args) (out_to_file instanceId timestamp output)
        | None =>
            logging (Some instanceId) WARNING
              ("No console output " +:+ "received for instance " +:+ instanceId)
        end
  end.

(** A [for] loop: an exception that leaves the body leaves the loop. *)
Fixpoint for_each {A} (l : list A) (body : A → M unit) : M unit :=
  match l with
  | [] => ret tt
  | x :: l' => body x >> for_each l' body
  end.

Definition visit_reservation (r : reservation) : M unit :=
  let instances := Instances r in
  emit None (LoggingInstances instances) >>
  for_each instances visit_instance.

(** One iteration of [while True]. *)
Definition cycle : M unit :=
  logging None INFO "Retrieving instances" >>
  let! listed :=
    try_except
      (let! reservations := describe_instances in ret (Some reservations))
      (λ e, logging None ERROR ("Cannot list instances: " +:+ e) >>
            time_sleep (interval args) >>
            ret None) in
  match listed with
  | None => ret tt
  | Some reservations =>
      for_each reservations visit_reservation >>
      logging None INFO
        ("Sleeping for " +:+ pretty (interval args) +:+ " seconds, "
         +:+ "press Ctrl+C to interrupt...") >>
      time_sleep (interval args)
  end.

(** The first [n] iterations of [while True]; the loop has no exit of
    its own, an uncaught exception ends the process. *)
Fixpoint run (n : nat) : M unit :=
  match n with
  | 0 => ret tt
  | S n' => cycle >> run n'
  end.

End Script.

(** ** Observations on a run *)

(** A delivery is a call that hands console output to a sink: the S3
    write, a line on standard output, opening or writing a local file. *)
Definition is_delivery (e : event) : bool :=
  match e with
  | PutObject _ _ _ | StdoutLine _ | FileOpen _ | FilePrint _ _ => true
  | _ => false
  end.

Definition deliveries (h : list entry) : list entry :=
  List.filter (λ en, is_delivery (ev en)) h.

(** The deliveries made while the loop visits [instanceId]. *)
Definition deliveries_for (instanceId : string) (h : list entry) : list entry :=
  List.filter
    (λ en, is_delivery (ev en) && bool_decide (scope en = Some instanceId)) h.

(** The [put_object] calls of a history: bucket, key and body. *)
Definition archive_writes (h : list entry) : list (string * string * string) :=
  omap (λ en, match ev en with
              | PutObject b k v => Some (b, k, v)
              | _ => None
              end) h.

Definition stdout_lines (h : list entry) : list string :=
  omap (λ en, match ev en with StdoutLine t => Some t | _ => None end) h.

Definition file_opens (h : list entry) : list string :=
  omap (λ en, match ev en with FileOpen f => Some f | _ => None end) h.

Definition file_prints (h : list entry) : list (string * string) :=
  omap (λ en, match ev en with FilePrint f t => Some (f, t) | _ => None end) h.

(** The [get_console_output] calls of a history. *)
Definition console_fetches (h : list entry) : list string :=
  omap (λ en, match ev en with GetConsoleOutput i => Some i | _ => None end) h.

(** The messages logged at a level. *)
Definition logged (lvl : level) (h : list entry) : list string :=
  omap (λ en, match ev en with
              | Logging l m => if decide (l = lvl) then Some m else None
              | _ => None
              end) h.

(** What was added to the history between two states. *)
Definition new_entries (s s' : state) : list entry :=
  drop (length (trace s)) (trace s').

(** [s] with more history. *)
Definition extend (s : state) (es : list entry) : state :=
  {| last_update := last_update s; files := files s;
     objects := objects s; trace := trace s ++ es |}.

(** [s] after [last_update[instanceId] = timestamp]. *)
Definition recorded (s : state) (instanceId : string) (timestamp : datetime) : state :=
  {| last_update := <[instanceId := timestamp]> (last_update s);
     files := files s; objects := objects s; trace := trace s |}.

(** [s] after S3 stored an object. *)
Definition archived (s : state) (Bucket Key Body : string) : state :=
  {| last_update := last_update s; files := files s;
     objects := <[(Bucket, Key) := Body]> (objects s); trace := trace s |}.

(** [s] after a local file got a new content. *)
Definition written (s : state) (filename content : string) : state :=
  {| last_update := last_update s;
     files := <[filename := content]> (files s);
     objects := objects s; trace := trace s |}.

(** The two entries every visit starts with, and the answer of the world
    to the fetch of that visit. *)
Definition fetch_entries (instanceId : string) : list entry :=
  [ mk_entry (Some instanceId)
      (Logging INFO ("Retrieving console log for instance " +:+ instanceId));
    mk_entry (Some instanceId) (GetConsoleOutput instanceId) ].

Definition fetched (w : world) (s : state) (instanceId : string) : result response :=
  ec2_get_console_output w (trace s ++ fetch_entries instanceId) instanceId.

(** The entries of an [out_to_s3] call up to the [put_object], and the
    answer of the world to that [put_object]. *)
Definition put_entries (bucket instanceId : string) (timestamp : datetime)
    (output : string) : list entry :=
  let key := instanceId +:+ "/" +:+ datetime_str timestamp in
  [ mk_entry (Some instanceId)
      (Logging INFO ("Writing key " +:+ key +:+ " to " +:+ "S3 bucket " +:+ bucket));
    mk_entry (Some instanceId) (PutObject bucket key output) ].

Definition put_answer (w : world) (s : state) (bucket instanceId : string)
    (timestamp : datetime) (output : string) : result unit :=
  s3_put_object w (trace s ++ put_entries bucket instanceId timestamp output)
    bucket (instanceId +:+ "/" +:+ datetime_str timestamp) output.

(** The state of a visit that found a new timestamp, right after
    [last_update[instanceId] = response["Timestamp"]]. *)
Definition after_update (s : state) (instanceId : string) (timestamp : datetime) : state :=
  extend (recorded s instanceId timestamp)
    (fetch_entries instanceId ++
     [mk_entry (Some instanceId)
        (Logging INFO ("Console updated " +:+ datetime_str timestamp))]).

(** The state of such a visit when it comes to [if args.file]. *)
Definition before_file (w : world) (args : Args) (s : state) (instanceId : string)
    (timestamp : datetime) (output : string) : state :=
  final ((out_to_s3 w (bucket args) instanceId timestamp output >>
          when (print args) (out_to_print instanceId timestamp output))
           (after_update s instanceId timestamp)).

(** The answers of the world to the [open] and to the [print] of an
    [out_to_file] call made in state [s]. *)
Definition open_entries (filename : string) (instanceId : string) : list entry :=
  [mk_entry (Some instanceId) (FileOpen filename)].

Definition print_entries (filename instanceId output : string) : list entry :=
  open_entries filename instanceId ++
  [ mk_entry (Some instanceId)
      (Logging INFO ("Writing output to file " +:+ filename));
    mk_entry (Some instanceId) (FilePrint filename output) ].

Definition open_answer (w : world) (s : state) (filename instanceId : string) : result unit :=
  fs_open w (trace s ++ open_entries filename instanceId) filename.

Definition print_answer (w : world) (s : state) (filename instanceId output : string) : result unit :=
  fs_print w (trace s ++ print_entries filename instanceId output) filename output.

(** The five lines [out_to_print] writes. *)
Definition print_block (instanceId : string) (timestamp : datetime)
    (output : string) : list string :=
  [ "====================================";
    "Instance ID: " +:+ instanceId;
    "Timestamp: " +:+ datetime_str timestamp;
    "------------------------------------";
    output ].

(** The answer of the world to the [describe_instances] of a cycle. *)
Definition list_entries (tag_key : string) : list entry :=
  [ mk_entry None (Logging INFO "Retrieving instances");
    mk_entry None (DescribeInstances tag_key) ].

Definition listed (w : world) (args : Args) (s : state) : result (list reservation) :=
  ec2_describe_instances w (trace s ++ list_entries (tag args)) (tag args).

(** What is left of a cycle after the visit of one instance: the
    instances after it in its reservation, the reservations after that
    one, and the sleep. *)
Definition finish_cycle (w : world) (args : Args) (post : list instance)
    (rs_post : list reservation) : M unit :=
  for_each post (visit_instance w args) >>
  for_each rs_post (visit_reservation w args) >>
  logging None INFO
    ("Sleeping for " +:+ pretty (interval args) +:+ " seconds, "
     +:+ "press Ctrl+C to interrupt...") >>
  time_sleep (interval args).

(** The cycle started in [s0] comes to the visit of [inst] in state [s]:
    the listing returned, and everything before [inst] returned. *)
Definition at_visit (w : world) (args : Args) (s0 : state)
    (rs_pre : list reservation) (pre : list instance) (inst : instance)
    (post : list instance) (rs_post : list reservation) (s : state) : Prop :=
  ∃ s1,
    listed w args s0
      = Ok (rs_pre ++ mk_reservation (pre ++ inst :: post) :: rs_post) ∧
    for_each rs_pre (visit_reservation w args)
      (extend s0 (list_entries (tag args))) = Return tt s1 ∧
    for_each pre (visit_instance w args)
      (extend s1 [mk_entry None (LoggingInstances (pre ++ inst :: post))])
      = Return tt s.

(** A timestamp written as [YYYY-MM-DDTHHMMSS]. *)
Definition stamp (t : datetime) : string :=
  zfill 4 (year t) +:+ "-" +:+ zfill 2 (month t) +:+ "-"
  +:+ zfill 2 (day t) +:+ "T" +:+ zfill 2 (hour t) +:+ zfill 2 (minute t)
  +:+ zfill 2 (second t).

(** The name of the local file of a snapshot. *)
Definition local_name (instanceId : string) (t : datetime) : string :=
  instanceId +:+ "_" +:+ stamp t.

(** Every field of a [datetime] fits in the digits its format gives it,
    which holds of every value Python accepts as a [datetime]. *)
Definition valid_datetime (t : datetime) : Prop :=
  (year t < 10000 ∧ month t < 100 ∧ day t < 100 ∧ hour t < 100
   ∧ minute t < 100 ∧ second t < 100 ∧ microsecond t < 1000000)%N.

(** An invariant is kept by a computation, however it ends; [Q] is what
    is known of the value when it returns. *)
Definition keeps {A} (I : state → Prop) (m : M A) (Q : A → Prop) : Prop :=
  ∀ s, I s → match m s with
             | Return a s' => I s' ∧ Q a
             | Raise _ s' => I s'
             end.

(** From [base] on, [instanceId] keeps the timestamp [T] in [last_update]
    and nothing is delivered for it. *)
Definition quiet_since (base : list entry) (instanceId : string) (T : datetime)
    (s : state) : Prop :=
  last_update s !! instanceId = Some T ∧
  ∃ new, trace s = base ++ new ∧ deliveries_for instanceId new = [].

(** [c in s]. *)
Fixpoint has_char (c : ascii) (s : string) : bool :=
  match s with
  | "" => false
  | String x s' => bool_decide (x = c) || has_char c s'
  end.

(** Between [s0] and [s] only the instance [i] was visited: what was
    added to the history belongs to it, and no other entry of
    [last_update] changed. *)
Definition touches_only (s0 : state) (i : string) (s : state) : Prop :=
  (∃ es, trace s = trace s0 ++ es ∧ Forall (λ en, scope en = Some i) es) ∧
  ∀ j, j ≠ i → last_update s !! j = last_update s0 !! j.

(** The ids of the instances of a listing, in the order of the listing. *)
Definition listed_ids (rs : list reservation) : list string :=
  concat (map (λ r, map InstanceId (Instances r)) rs).

(** What the command line allows an entry of the history to be: S3 is
    written in the configured bucket under the id of the visited instance,
    standard output only with [--print], local files only with [--file]
    and under the name of the visited instance, the listing asks for the
    configured tag, a console is fetched for the visited instance, and
    the loop sleeps for the configured interval. *)
Definition allowed (args : Args) (en : entry) : Prop :=
  match ev en with
  | PutObject b k _ =>
      b = bucket args ∧
      ∃ i t, scope en = Some i ∧ k = i +:+ "/" +:+ datetime_str t
  | StdoutLine _ => print args = true
  | FileOpen f | FilePrint f _ =>
      file args = true ∧ ∃ i t, scope en = Some i ∧ f = local_name i t
  | DescribeInstances tag_key => tag_key = tag args
  | GetConsoleOutput i => scope en = Some i
  | Sleep secs => secs = interval args ∧ (0 ≤ secs)%Z
  | _ => True
  end.

(** What holds of the state [s] of a run that started in [s0]: the
    history has grown by allowed entries, the files are untouched without
    [--file], no entry of [last_update] was removed, and the objects of
    other buckets are untouched. *)
Definition since (args : Args) (s0 s : state) : Prop :=
  (∃ new, trace s = trace s0 ++ new ∧ Forall (allowed args) new) ∧
  (file args = false → files s = files s0) ∧
  (∀ j, is_Some (last_update s0 !! j) → is_Some (last_update s !! j)) ∧
  (∀ b k, b ≠ bucket args → objects s !! (b, k) = objects s0 !! (b, k)).

(** What a computation that started in [s] and ended as [o] fetched: the
    consoles of [ids] in that order when it returned, of the first few of
    them when an exception ended it. *)
Definition fetch_report {A} (ids : list string) (o : outcome A) (s : state) : Prop :=
  ∃ es, trace (final o) = trace s ++ es ∧
        console_fetches es `prefix_of` ids ∧
        (returns o = true → console_fetches es = ids).

(** The exception of [time.sleep(secs)] for a length it refuses. *)
Definition sleep_error (secs : Z) : exn :=
  if decide (secs < - max_sleep ∨ max_sleep < secs)%Z
  then "timestamp too large to convert to C _PyTime_t"
  else "sleep length must be non-negative".

(** No exception leaves the computation, in whatever state it starts. *)
Definition never_raises {A} (m : M A) : Prop :=
  ∀ s, returns (m s) = true.

(** Two timestamps agree up to the second. *)
Definition same_second (t t' : datetime) : Prop :=
  year t = year t' ∧ month t = month t' ∧ day t = day t' ∧
  hour t = hour t' ∧ minute t = minute t' ∧ second t = second t'.

(** ** Sample data *)

Definition T1 : datetime := mk_datetime 2019 3 5 7 8 9 0.
Definition T2 : datetime := mk_datetime 2019 3 5 7 8 10 123.
Definition T0 : datetime := mk_datetime 2018 12 31 23 59 59 0.

Definition i001 : instance := mk_instance "i-001".
Definition i002 : instance := mk_instance "i-002".

Definition sample_args : Args :=
  {| tag := "monitor"; region := "eu-west-1"; bucket := "console-logs";
     interval := 60; file := true; print := true; quiet := false |}.

(** A world where everything works: two instances, [i-001] with a
    console log, [i-002] whose console has no output yet. *)
Definition calm_world : world :=
  {| ec2_describe_instances := λ _ _, Ok [mk_reservation [i001; i002]];
     ec2_get_console_output := λ _ i,
       if decide (i = "i-001") then Ok (mk_response T1 (Some "panic log A"))
       else Ok (mk_response T2 None);
     s3_put_object := λ _ _ _ _, Ok tt;
     fs_open := λ _ _, Ok tt;
     fs_print := λ _ _ _, Ok tt |}.

(** The same, but S3 refuses every write. *)
Definition s3_down_world : world :=
  {| ec2_describe_instances := ec2_describe_instances calm_world;
     ec2_get_console_output := ec2_get_console_output calm_world;
     s3_put_object := λ _ _ _ _, Err "AccessDenied";
     fs_open := λ _ _, Ok tt;
     fs_print := λ _ _ _, Ok tt |}.

(** The same as [calm_world], but no file can be opened. *)
Definition readonly_world : world :=
  {| ec2_describe_instances := ec2_describe_instances calm_world;
     ec2_get_console_output := ec2_get_console_output calm_world;
     s3_put_object := λ _ _ _ _, Ok tt;
     fs_open := λ _ _, Err "Permission denied";
     fs_print := λ _ _ _, Ok tt |}.

(** EC2 answers nothing: neither the listing nor any console. *)
Definition ec2_down_world : world :=
  {| ec2_describe_instances := λ _ _, Err "RequestLimitExceeded";
     ec2_get_console_output := λ _ _, Err "InvalidInstanceID";
     s3_put_object := λ _ _ _ _, Ok tt;
     fs_open := λ _ _, Ok tt;
     fs_print := λ _ _ _, Ok tt |}.

(** The console of [i-001] cannot be fetched; [i-002] has a log. *)
Definition flaky_world : world :=
  {| ec2_describe_instances := λ _ _, Ok [mk_reservation [i001; i002]];
     ec2_get_console_output := λ _ i,
       if decide (i = "i-001") then Err "InvalidInstanceID"
       else Ok (mk_response T2 (Some "panic log B"));
     s3_put_object := λ _ _ _ _, Ok tt;
     fs_open := λ _ _, Ok tt;
     fs_print := λ _ _ _, Ok tt |}.

(** The console of [i-001] has the timestamp [T0] and no output. *)
Definition silent_world : world :=
  {| ec2_describe_instances := λ _ _, Ok [mk_reservation [i001]];
     ec2_get_console_output := λ _ _, Ok (mk_response T0 None);
     s3_put_object := λ _ _ _ _, Ok tt;
     fs_open := λ _ _, Ok tt;
     fs_print := λ _ _ _, Ok tt |}.

(** The console of [i-001] keeps the timestamp [T1]; its output is
    missing at the first fetch and present from then on. *)
Definition late_output_world : world :=
  {| ec2_describe_instances := λ _ _, Ok [mk_reservation [i001]];
     ec2_get_console_output := λ h _,
       Ok (mk_response T1
             (if decide (length h ≤ 2)%nat then None else Some "panic log A"));
     s3_put_object := λ _ _ _ _, Ok tt;
     fs_open := λ _ _, Ok tt;
     fs_print := λ _ _ _, Ok tt |}.

(** The same as [calm_world] with the sinks that can be switched off
    switched off, and with a negative interval. *)
Definition s3_only_args : Args :=
  {| tag := "monitor"; region := "eu-west-1"; bucket := "console-logs";
     interval := 60; file := false; print := false; quiet := true |}.

Definition negative_interval_args : Args :=
  {| tag := "monitor"; region := "eu-west-1"; bucket := "console-logs";
     interval := -5; file := false; print := false; quiet := false |}.


(** [T1] a few microseconds later. *)
Definition T1_later : datetime := mk_datetime 2019 3 5 7 8 9 250.

(** The console of [i-001] was refreshed within the second of [T1]. *)
Definition same_second_world : world :=
  {| ec2_describe_instances := λ _ _, Ok [mk_reservation [i001]];
     ec2_get_console_output := λ _ _,
       Ok (mk_response T1_later (Some "panic log A, continued"));
     s3_put_object := λ _ _ _ _, Ok tt;
     fs_open := λ _ _, Ok tt;
     fs_print := λ _ _ _, Ok tt |}.

(** A state where [i-001] was last seen at [T1]. *)
Definition seen_T1 : state :=
  {| last_update := {[ "i-001" := T1 ]}; files := ∅; objects := ∅; trace := [] |}.

(** * Properties *)

(** ** States and histories *)

Lemma new_entries_app s s' new :
  trace s' = trace s ++ new → new_entries s s' = new.
Proof. intros H. unfold new_entries. rewrite H. by rewrite drop_app_length. Qed.

Lemma new_entries_extend s es : new_entries s (extend s es) = es.
Proof. by apply new_entries_app. Qed.

Lemma deliveries_for_app i h1 h2 :
  deliveries_for i (h1 ++ h2) = deliveries_for i h1 ++ deliveries_for i h2.
Proof. apply List.filter_app. Qed.

Lemma no_updates_iff (last : gmap string datetime) i t :
  no_updates last i t = true ↔ last !! i = Some t.
Proof.
  unfold no_updates. destruct (last !! i) as [seen|]; [|done].
  rewrite bool_decide_eq_true. split; congruence.
Qed.

Lemma no_updates_false (last : gmap string datetime) i t :
  no_updates last i t = false ↔ last !! i ≠ Some t.
Proof.
  rewrite <- no_updates_iff. destruct (no_updates last i t); split; congruence.
Qed.

(** ** Sleeping *)

Lemma time_sleep_ok secs s :
  (0 ≤ secs ≤ max_sleep)%Z →
  time_sleep secs s = Return tt (extend s [mk_entry None (Sleep secs)]).
Proof.
  intros Hsecs. unfold time_sleep.
  rewrite decide_False by lia. by rewrite decide_False by lia.
Qed.

Lemma time_sleep_refused secs s :
  ¬ (0 ≤ secs ≤ max_sleep)%Z →
  time_sleep secs s = Raise (sleep_error secs) s.
Proof.
  intros Hsecs. unfold time_sleep, sleep_error.
  destruct (decide (secs < - max_sleep ∨ max_sleep < secs)%Z); [done|].
  rewrite decide_True; [done|]. unfold max_sleep in *. lia.
Qed.

(** A sleep adds at most its own entry to the history and changes
    nothing else. *)
Lemma time_sleep_cases secs s :
  time_sleep secs s = Return tt (extend s [mk_entry None (Sleep secs)]) ∨
  time_sleep secs s = Raise (sleep_error secs) s.
Proof.
  destruct (decide (0 ≤ secs ≤ max_sleep)%Z).
  - left. by apply time_sleep_ok.
  - right. by apply time_sleep_refused.
Qed.

(** ** Strings *)

Lemma append_empty_r (s : string) : s +:+ "" = s.
Proof. induction s as [|c s IH]; [done|]. by rewrite <- IH at 2. Qed.

Lemma append_assoc (a b c : string) : (a +:+ b) +:+ c = a +:+ b +:+ c.
Proof.
  induction a as [|x a IH]; [done|].
  change (String x ((a +:+ b) +:+ c) = String x (a +:+ b +:+ c)).
  by rewrite IH.
Qed.

Lemma length_append (a b : string) :
  String.length (a +:+ b) = String.length a + String.length b.
Proof.
  induction a as [|x a IH]; [done|].
  change (S (String.length (a +:+ b)) = S (String.length a + String.length b)).
  by rewrite IH.
Qed.

Lemma append_cons (x : ascii) (a b : string) :
  String x a +:+ b = String x (a +:+ b).
Proof. reflexivity. Qed.

Lemma append_inj_length (a a' b b' : string) :
  String.length a = String.length a' → a +:+ b = a' +:+ b' → a = a' ∧ b = b'.
Proof.
  revert a'. induction a as [|x a IH]; intros [|x' a'] Hlen Heq; try done.
  rewrite !append_cons in Heq. injection Heq as -> Heq.
  destruct (IH a') as [-> ->]; [by injection Hlen|done|done].
Qed.

Lemma has_char_append c (a b : string) :
  has_char c (a +:+ b) = has_char c a || has_char c b.
Proof.
  induction a as [|x a IH]; [done|].
  rewrite append_cons. simpl. by rewrite IH, orb_assoc.
Qed.

(** A string is cut in one way only at its last occurrence of [c]. *)
Lemma append_inj_last c (a a' s s' : string) :
  has_char c s = false → has_char c s' = false →
  a +:+ String c s = a' +:+ String c s' → a = a' ∧ s = s'.
Proof.
  intros Hs Hs'. revert a'.
  induction a as [|x a IH]; intros [|x' a'] Heq.
  - by injection Heq as ->.
  - rewrite append_cons in Heq. injection Heq as <- Heq.
    rewrite Heq, has_char_append in Hs. simpl in Hs.
    rewrite bool_decide_eq_true_2 in Hs by done.
    by rewrite orb_true_r in Hs.
  - rewrite append_cons in Heq. injection Heq as -> Heq.
    rewrite <- Heq, has_char_append in Hs'. simpl in Hs'.
    rewrite bool_decide_eq_true_2 in Hs' by done.
    by rewrite orb_true_r in Hs'.
  - rewrite !append_cons in Heq. injection Heq as -> Heq.
    by destruct (IH a' Heq) as [-> ->].
Qed.

(** ** Decimal digits and timestamps *)

Lemma fixed_digits_length w n acc :
  String.length (fixed_digits w n acc) = w + String.length acc.
Proof.
  revert n acc. induction w as [|w IH]; intros n acc; [done|].
  simpl. rewrite IH. simpl. lia.
Qed.

Lemma zfill_length w n :
  (n < 10 ^ N.of_nat w)%N → String.length (zfill w n) = w.
Proof.
  intros Hn. unfold zfill. rewrite decide_True by done.
  rewrite fixed_digits_length. simpl. lia.
Qed.

Lemma digit_char_code n : N_of_ascii (digit_char n) = (48 + n `mod` 10)%N.
Proof.
  unfold digit_char. apply N_ascii_embedding.
  pose proof (N.mod_lt n 10). lia.
Qed.

Lemma digit_char_inj n m :
  digit_char n = digit_char m → (n `mod` 10 = m `mod` 10)%N.
Proof.
  intros H. apply (f_equal N_of_ascii) in H. rewrite !digit_char_code in H. lia.
Qed.

Lemma fixed_digits_inj w n m acc acc' :
  (n < 10 ^ N.of_nat w)%N → (m < 10 ^ N.of_nat w)%N →
  fixed_digits w n acc = fixed_digits w m acc' → n = m ∧ acc = acc'.
Proof.
  revert n m acc acc'. induction w as [|w IH]; intros n m acc acc' Hn Hm Heq.
  - simpl in *. split; [lia|done].
  - rewrite Nat2N.inj_succ, N.pow_succ_r' in Hn, Hm. simpl in Heq.
    apply IH in Heq as [Hdiv Hacc].
    + injection Hacc as Hdigit ->. apply digit_char_inj in Hdigit.
      split; [|done].
      rewrite (N.div_mod n 10), (N.div_mod m 10) by done. congruence.
    + apply N.Div0.div_lt_upper_bound. lia.
    + apply N.Div0.div_lt_upper_bound. lia.
Qed.

Lemma zfill_inj w n m :
  (n < 10 ^ N.of_nat w)%N → (m < 10 ^ N.of_nat w)%N →
  zfill w n = zfill w m → n = m.
Proof.
  intros Hn Hm. unfold zfill. rewrite !decide_True by done.
  intros Heq. by apply fixed_digits_inj in Heq as [-> _].
Qed.

Lemma fixed_digits_has_char c w n acc :
  (N_of_ascii c < 48)%N →
  has_char c (fixed_digits w n acc) = has_char c acc.
Proof.
  intros Hc. revert n acc. induction w as [|w IH]; intros n acc; [done|].
  simpl. rewrite IH. simpl. rewrite bool_decide_eq_false_2; [done|].
  intros Heq. rewrite <- Heq, digit_char_code in Hc.
  revert Hc. generalize (n `mod` 10)%N. lia.
Qed.

Lemma zfill_has_char c w n :
  (N_of_ascii c < 48)%N → (n < 10 ^ N.of_nat w)%N →
  has_char c (zfill w n) = false.
Proof.
  intros Hc Hn. unfold zfill. rewrite decide_True by done.
  by rewrite fixed_digits_has_char.
Qed.

(** ** The loop constructs *)

Lemma for_each_raise {A} (x : A) (rest : list A) (body : A → M unit) s e s' :
  body x s = Raise e s' → for_each (x :: rest) body s = Raise e s'.
Proof. intros H. simpl. unfold bind. by rewrite H. Qed.

Lemma for_each_return {A} (x : A) (rest : list A) (body : A → M unit) s s' :
  body x s = Return tt s' → for_each (x :: rest) body s = for_each rest body s'.
Proof. intros H. simpl. unfold bind. by rewrite H. Qed.

Lemma run_raise w args n s e s' :
  cycle w args s = Raise e s' → run w args (S n) s = Raise e s'.
Proof. intros H. simpl. unfold bind. by rewrite H. Qed.


(** ** Invariants *)

Lemma keeps_ret {A} (I : state → Prop) (a : A) (Q : A → Prop) :
  Q a → keeps I (ret a) Q.
Proof. intros HQ s HI. by simpl. Qed.

Lemma keeps_bind {A B} (I : state → Prop) (m : M A) (k : A → M B) Q R :
  keeps I m Q → (∀ a, Q a → keeps I (k a) R) → keeps I (bind m k) R.
Proof.
  intros Hm Hk s HI. unfold bind. specialize (Hm s HI).
  destruct (m s) as [a s'|e s']; [|done].
  destruct Hm as [HI' HQ]. by apply Hk.
Qed.

Lemma keeps_try {A} (I : state → Prop) (m : M A) (h : exn → M A) Q :
  keeps I m Q → (∀ e, keeps I (h e) Q) → keeps I (try_except m h) Q.
Proof.
  intros Hm Hh s HI. unfold try_except. specialize (Hm s HI).
  destruct (m s) as [a s'|e s']; [done|]. by apply Hh.
Qed.

Lemma keeps_when (I : state → Prop) (b : bool) (m : M unit) :
  keeps I m (λ _, True) → keeps I (when b m) (λ _, True).
Proof. intros Hm. destruct b; simpl; [done|]. by apply keeps_ret. Qed.

Lemma keeps_for_each {A} (I : state → Prop) (l : list A) (body : A → M unit) :
  (∀ x, x ∈ l → keeps I (body x) (λ _, True)) →
  keeps I (for_each l body) (λ _, True).
Proof.
  induction l as [|x l IH]; intros Hbody; simpl.
  - by apply keeps_ret.
  - eapply keeps_bind.
    + apply Hbody. by left.
    + intros _ _. apply IH. intros y Hy. apply Hbody. by right.
Qed.

Lemma keeps_final {A} (I : state → Prop) (m : M A) Q s :
  keeps I m Q → I s → I (final (m s)).
Proof.
  intros Hm HI. specialize (Hm s HI).
  destruct (m s) as [a s'|e s']; simpl; [by destruct Hm|done].
Qed.

(** ** What the helpers and a visit compute *)

Ltac run_script :=
  unfold bind, ret, try_except, when, logging, print_stdout, emit, ask,
    store_object, set_file, get_file, set_last_update, get_last_update,
    extend, recorded, archived, written, after_update; simpl.

Ltac assoc_trace := repeat (rewrite <- app_assoc; simpl).

Ltac digits_bound :=
  match goal with
  | |- (_ < 10 ^ N.of_nat ?w)%N =>
      let v := eval vm_compute in (10 ^ N.of_nat w)%N in
      change (10 ^ N.of_nat w)%N with v; assumption
  end.

Section Equations.
Variable w : world.
Variable args : Args.

Lemma out_to_s3_eq b i t out s :
  out_to_s3 w b i t out s =
  Return tt
    match put_answer w s b i t out with
    | Ok _ =>
        archived (extend s (put_entries b i t out))
          b (i +:+ "/" +:+ datetime_str t) out
    | Err e =>
        extend s (put_entries b i t out ++
          [mk_entry (Some i)
             (Logging ERROR
                ("Cannot put object to S3 bucket" +:+ b +:+ ":" +:+ e))])
    end.
Proof.
  unfold out_to_s3, put_object, put_answer, put_entries. run_script.
  assoc_trace. destruct (s3_put_object w _ _ _ _) as [[]|e]; simpl.
  - reflexivity.
  - by assoc_trace.
Qed.

Lemma out_to_print_eq i t out s :
  out_to_print i t out s =
  Return tt (extend s
    [ mk_entry (Some i) (StdoutLine "====================================");
      mk_entry (Some i) (StdoutLine ("Instance ID: " +:+ i));
      mk_entry (Some i) (StdoutLine ("Timestamp: " +:+ datetime_str t));
      mk_entry (Some i) (StdoutLine "------------------------------------");
      mk_entry (Some i) (StdoutLine out) ]).
Proof. unfold out_to_print. run_script. by assoc_trace. Qed.

Lemma strftime_stamp t : strftime "%Y-%m-%dT%H%M%S" t = stamp t.
Proof.
  unfold stamp. simpl. unfold strftime_directive. simpl.
  by rewrite append_empty_r.
Qed.

Lemma strftime_eq i t :
  i +:+ "_" +:+ strftime "%Y-%m-%dT%H%M%S" t = local_name i t.
Proof. unfold local_name. by rewrite strftime_stamp. Qed.

Lemma stamp_length t : valid_datetime t → String.length (stamp t) = 17.
Proof.
  intros (Hy & Hmo & Hd & Hh & Hmi & Hsec & _). unfold stamp.
  rewrite !length_append, !zfill_length by digits_bound. reflexivity.
Qed.

Lemma out_to_file_eq i t out s :
  let name := local_name i t in
  out_to_file w i t out s =
  match open_answer w s name i with
  | Err e => Raise e (extend s (open_entries name i))
  | Ok _ =>
      match print_answer w s name i out with
      | Err e => Raise e (extend (written s name "") (print_entries name i out))
      | Ok _ =>
          Return tt (extend (written s name (out +:+ newline))
                       (print_entries name i out))
      end
  end.
Proof.
  intros name. unfold out_to_file, open_w, print_to_file.
  rewrite strftime_eq. fold name.
  unfold open_answer, print_answer, print_entries, open_entries. run_script.
  destruct (fs_open w _ _) as [[]|e]; simpl; [|done].
  assoc_trace.
  destruct (fs_print w _ _ _) as [[]|e]; simpl; [|done].
  rewrite lookup_insert_eq. simpl. by rewrite insert_insert_eq.
Qed.

Lemma visit_fetch_failed inst s e :
  fetched w s (InstanceId inst) = Err e →
  visit_instance w args inst s =
  Return tt (extend s (fetch_entries (InstanceId inst) ++
    [mk_entry (Some (InstanceId inst))
       (Logging ERROR ("Cannot retrieve log for instance "
                       +:+ InstanceId inst +:+ ":" +:+ e))])).
Proof.
  unfold fetched, fetch_entries, visit_instance, get_console_output.
  run_script. assoc_trace. intros ->. simpl. by assoc_trace.
Qed.

Lemma visit_no_updates inst s r :
  fetched w s (InstanceId inst) = Ok r →
  last_update s !! InstanceId inst = Some (Timestamp r) →
  visit_instance w args inst s =
  Return tt (extend s (fetch_entries (InstanceId inst) ++
    [mk_entry (Some (InstanceId inst))
       (Logging INFO ("No updates since " +:+ datetime_str (Timestamp r)))])).
Proof.
  unfold fetched, fetch_entries, visit_instance, get_console_output.
  run_script. assoc_trace. intros -> Hseen. simpl.
  apply no_updates_iff in Hseen. rewrite Hseen. simpl. by assoc_trace.
Qed.

Lemma visit_updated_no_output inst s r :
  fetched w s (InstanceId inst) = Ok r →
  last_update s !! InstanceId inst ≠ Some (Timestamp r) →
  Output r = None →
  visit_instance w args inst s =
  Return tt (extend (after_update s (InstanceId inst) (Timestamp r))
    [mk_entry (Some (InstanceId inst))
       (Logging WARNING ("No console output " +:+ "received for instance "
                         +:+ InstanceId inst))]).
Proof.
  unfold fetched, fetch_entries, visit_instance, get_console_output.
  run_script. assoc_trace. intros -> Hnew Hout. simpl.
  apply no_updates_false in Hnew. rewrite Hnew, Hout. simpl. by assoc_trace.
Qed.

Lemma visit_updated_output inst s r out :
  fetched w s (InstanceId inst) = Ok r →
  last_update s !! InstanceId inst ≠ Some (Timestamp r) →
  Output r = Some out →
  visit_instance w args inst s =
  (out_to_s3 w (bucket args) (InstanceId inst) (Timestamp r) out >>
   when (print args) (out_to_print (InstanceId inst) (Timestamp r) out) >>
   when (file args) (out_to_file w (InstanceId inst) (Timestamp r) out))
    (after_update s (InstanceId inst) (Timestamp r)).
Proof.
  unfold fetched, fetch_entries, visit_instance, get_console_output.
  run_script. assoc_trace. intros -> Hnew Hout. simpl.
  apply no_updates_false in Hnew. rewrite Hnew, Hout. simpl. by assoc_trace.
Qed.

End Equations.

(** ** What a cycle computes *)

Section Cycle.
Variable w : world.
Variable args : Args.

Lemma cycle_listing_failed s e :
  listed w args s = Err e →
  cycle w args s =
  (time_sleep (interval args))
    (extend s (list_entries (tag args) ++
       [mk_entry None (Logging ERROR ("Cannot list instances: " +:+ e))])).
Proof.
  unfold listed, list_entries, cycle, describe_instances.
  run_script. assoc_trace. intros ->. simpl. assoc_trace.
  by destruct (time_sleep (interval args) _) as [[] s'|e' s'].
Qed.

Lemma cycle_listed s rs :
  listed w args s = Ok rs →
  cycle w args s =
  (for_each rs (visit_reservation w args) >> finish_cycle w args [] [])
    (extend s (list_entries (tag args))).
Proof.
  unfold listed, list_entries, cycle, describe_instances, finish_cycle.
  run_script. assoc_trace. intros ->. simpl.
  destruct (for_each rs _ _) as [[] s'|e s']; done.
Qed.

Lemma finish_cycle_cons inst post rs_post s :
  finish_cycle w args (inst :: post) rs_post s =
  (visit_instance w args inst >> finish_cycle w args post rs_post) s.
Proof.
  unfold finish_cycle. simpl. unfold bind.
  by destruct (visit_instance w args inst s) as [[] s'|e s'].
Qed.

Lemma finish_cycle_reservation r rs_post s :
  finish_cycle w args [] (r :: rs_post) s =
  finish_cycle w args (Instances r) rs_post
    (extend s [mk_entry None (LoggingInstances (Instances r))]).
Proof.
  unfold finish_cycle, visit_reservation. simpl. run_script.
  by destruct (for_each (Instances r) _ _) as [[] s'|e s'].
Qed.

Lemma finish_cycle_app pre post rs_post s :
  finish_cycle w args (pre ++ post) rs_post s =
  (for_each pre (visit_instance w args) >> finish_cycle w args post rs_post) s.
Proof.
  revert s. induction pre as [|x pre IH]; intros s; [done|].
  rewrite <- app_comm_cons, finish_cycle_cons. simpl. unfold bind in *.
  destruct (visit_instance w args x s) as [[] s'|e s']; [|done]. apply IH.
Qed.

Lemma finish_cycle_reservations rs_pre rs_post s :
  finish_cycle w args [] (rs_pre ++ rs_post) s =
  (for_each rs_pre (visit_reservation w args) >>
   finish_cycle w args [] rs_post) s.
Proof.
  revert s. induction rs_pre as [|r rs_pre IH]; intros s; [done|].
  rewrite <- app_comm_cons. unfold finish_cycle in *. simpl in *.
  unfold bind, ret in *. simpl in *.
  destruct (visit_reservation w args r s) as [[] s'|e s']; [|done]. apply IH.
Qed.

(** A cycle that comes to the visit of [inst] is that visit followed by
    the rest of the cycle. *)
Lemma cycle_at_visit s0 rs_pre pre inst post rs_post s :
  at_visit w args s0 rs_pre pre inst post rs_post s →
  cycle w args s0 =
  (visit_instance w args inst >> finish_cycle w args post rs_post) s.
Proof.
  intros (s1 & Hlist & Hpre_rs & Hpre).
  rewrite (cycle_listed _ _ Hlist).
  transitivity (finish_cycle w args []
    (rs_pre ++ mk_reservation (pre ++ inst :: post) :: rs_post)
    (extend s0 (list_entries (tag args)))).
  { unfold finish_cycle. simpl. unfold bind, ret.
    by destruct (for_each _ _ _) as [[] s'|e s']. }
  rewrite finish_cycle_reservations. unfold bind at 1. rewrite Hpre_rs.
  rewrite finish_cycle_reservation. simpl.
  rewrite finish_cycle_app. unfold bind at 1. rewrite Hpre.
  apply finish_cycle_cons.
Qed.

End Cycle.

(** ** A visit touches only its own instance *)

Section Frame.
Variable w : world.
Variable args : Args.
Variable s0 : state.
Variable i : string.

Lemma touches_only_refl : touches_only s0 i s0.
Proof.
  split; [|done]. exists []. split; [by rewrite app_nil_r|constructor].
Qed.

Lemma touches_emit e :
  keeps (touches_only s0 i) (emit (Some i) e) (λ _, True).
Proof.
  intros s [(es & Htr & Hes) Hlast]. simpl. split; [|done]. split; [|done].
  exists (es ++ [mk_entry (Some i) e]). split.
  - by rewrite Htr, <- app_assoc.
  - apply Forall_app. split; [done|]. by repeat constructor.
Qed.

Lemma touches_ask {A} (q : world → list entry → result A) :
  keeps (touches_only s0 i) (ask w q) (λ _, True).
Proof. intros s HI. unfold ask. by destruct (q w (trace s)). Qed.

Lemma touches_set_last_update t :
  keeps (touches_only s0 i) (set_last_update i t) (λ _, True).
Proof.
  intros s [Htr Hlast]. simpl. split; [|done]. split; [done|].
  intros j Hj. simpl. rewrite lookup_insert_ne by done. by apply Hlast.
Qed.

Lemma touches_get_last_update :
  keeps (touches_only s0 i) get_last_update (λ _, True).
Proof. by intros s HI. Qed.

Lemma touches_store_object b k v :
  keeps (touches_only s0 i) (store_object b k v) (λ _, True).
Proof. by intros s HI. Qed.

Lemma touches_set_file f c :
  keeps (touches_only s0 i) (set_file f c) (λ _, True).
Proof. by intros s HI. Qed.

Lemma touches_get_file f :
  keeps (touches_only s0 i) (get_file f) (λ _, True).
Proof. by intros s HI. Qed.

Lemma touches_seq {A B} (m : M A) (k : A → M B) :
  keeps (touches_only s0 i) m (λ _, True) →
  (∀ a, keeps (touches_only s0 i) (k a) (λ _, True)) →
  keeps (touches_only s0 i) (bind m k) (λ _, True).
Proof. intros Hm Hk. eapply keeps_bind; [exact Hm|]. intros a _. apply Hk. Qed.

Lemma touches_out_to_s3 b t out :
  keeps (touches_only s0 i) (out_to_s3 w b i t out) (λ _, True).
Proof.
  unfold out_to_s3, put_object, logging.
  apply touches_seq; [apply touches_emit|]. intros _.
  apply keeps_try.
  - apply touches_seq; [apply touches_emit|]. intros _.
    apply touches_seq; [apply touches_ask|]. intros _.
    apply touches_store_object.
  - intros e. apply touches_emit.
Qed.

Lemma touches_out_to_print t out :
  keeps (touches_only s0 i) (out_to_print i t out) (λ _, True).
Proof.
  unfold out_to_print, print_stdout.
  repeat (apply touches_seq; [apply touches_emit|]; intros _).
  apply touches_emit.
Qed.

Lemma touches_out_to_file t out :
  keeps (touches_only s0 i) (out_to_file w i t out) (λ _, True).
Proof.
  unfold out_to_file, open_w, print_to_file, logging.
  apply touches_seq.
  { apply touches_seq; [apply touches_emit|]. intros _.
    apply touches_seq; [apply touches_ask|]. intros _. apply touches_set_file. }
  intros _. apply touches_seq; [apply touches_emit|]. intros _.
  apply touches_seq; [apply touches_emit|]. intros _.
  apply touches_seq; [apply touches_ask|]. intros _.
  apply touches_seq; [apply touches_get_file|]. intros old.
  apply touches_set_file.
Qed.

Lemma touches_visit inst :
  InstanceId inst = i →
  keeps (touches_only s0 i) (visit_instance w args inst) (λ _, True).
Proof.
  intros Hi. unfold visit_instance, get_console_output, logging. rewrite Hi.
  apply touches_seq; [apply touches_emit|]. intros _.
  apply touches_seq.
  { apply keeps_try.
    - apply touches_seq.
      + apply touches_seq; [apply touches_emit|]. intros _. apply touches_ask.
      + intros r. by apply keeps_ret.
    - intros e. apply touches_seq; [apply touches_emit|]. intros _.
      by apply keeps_ret. }
  intros [r|]; [|by apply keeps_ret].
  apply touches_seq; [apply touches_get_last_update|]. intros last.
  destruct (no_updates last i (Timestamp r)); [apply touches_emit|].
  apply touches_seq; [apply touches_emit|]. intros _.
  apply touches_seq; [apply touches_set_last_update|]. intros _.
  destruct (Output r) as [out|]; [|apply touches_emit].
  apply touches_seq; [apply touches_out_to_s3|]. intros _.
  apply touches_seq; [apply keeps_when, touches_out_to_print|]. intros _.
  apply keeps_when, touches_out_to_file.
Qed.

End Frame.

Lemma visit_touches_only w args inst s :
  touches_only s (InstanceId inst) (final (visit_instance w args inst s)).
Proof.
  eapply keeps_final; [by apply touches_visit|apply touches_only_refl].
Qed.

(** ** An unchanged timestamp keeps an instance quiet *)

Section Quiet.
Variable w : world.
Variable args : Args.
Variable base : list entry.
Variable i : string.
Variable T : datetime.

(** From [base] on, every console of [i] that can be fetched carries
    the timestamp [T]. *)
Hypothesis same_timestamp :
  ∀ new r, ec2_get_console_output w (base ++ new) i = Ok r → Timestamp r = T.

Lemma quiet_extend s es :
  quiet_since base i T s → deliveries_for i es = [] →
  quiet_since base i T (extend s es).
Proof.
  intros [Hlast (new & Htr & Hnew)] Hes. split; [done|].
  exists (new ++ es). split.
  - simpl. by rewrite Htr, <- app_assoc.
  - by rewrite deliveries_for_app, Hnew, Hes.
Qed.

Lemma deliveries_for_other j es :
  j ≠ i → Forall (λ en, scope en = Some j) es → deliveries_for i es = [].
Proof.
  intros Hj. induction 1 as [|en es Hen _ IH]; [done|].
  unfold deliveries_for in *. simpl. rewrite IH, Hen.
  rewrite bool_decide_eq_false_2 by congruence. by rewrite andb_false_r.
Qed.

Lemma quiet_emit_outside e :
  keeps (quiet_since base i T) (emit None e) (λ _, True).
Proof.
  intros s HI. simpl. split; [|done].
  apply (quiet_extend s [mk_entry None e] HI).
  unfold deliveries_for. simpl. by rewrite andb_false_r.
Qed.

Lemma quiet_ask {A} (q : world → list entry → result A) :
  keeps (quiet_since base i T) (ask w q) (λ _, True).
Proof. intros s HI. unfold ask. by destruct (q w (trace s)). Qed.

Lemma quiet_time_sleep secs :
  keeps (quiet_since base i T) (time_sleep secs) (λ _, True).
Proof.
  intros s HI. destruct (time_sleep_cases secs s) as [-> | ->]; [|done].
  by apply (quiet_emit_outside (Sleep secs) s).
Qed.

Lemma quiet_visit inst :
  keeps (quiet_since base i T) (visit_instance w args inst) (λ _, True).
Proof.
  intros s HI. destruct (decide (InstanceId inst = i)) as [Hi|Hi].
  - destruct HI as [Hlast (new & Htr & Hnew)].
    destruct (fetched w s (InstanceId inst)) as [r|e] eqn:Hfetch.
    + assert (Timestamp r = T) as Hr.
      { apply (same_timestamp (new ++ fetch_entries i)).
        rewrite app_assoc, <- Htr, <- Hi. exact Hfetch. }
      rewrite (visit_no_updates w args inst s r Hfetch)
        by (rewrite Hi, Hr; exact Hlast).
      split; [|done]. apply quiet_extend; [split; eauto|].
      unfold deliveries_for. by simpl.
    + rewrite (visit_fetch_failed w args inst s e Hfetch).
      split; [|done]. apply quiet_extend; [split; eauto|].
      unfold deliveries_for. by simpl.
  - pose proof (visit_touches_only w args inst s) as [(es & Htr & Hes) Hframe].
    assert (quiet_since base i T (final (visit_instance w args inst s))) as HI'.
    { destruct HI as [Hlast (new & Htr0 & Hnew)]. split.
      - rewrite Hframe by done. exact Hlast.
      - exists (new ++ es). split.
        + by rewrite Htr, Htr0, <- app_assoc.
        + rewrite deliveries_for_app, Hnew.
          by rewrite (deliveries_for_other (InstanceId inst)). }
    by destruct (visit_instance w args inst s) as [[] s'|e s'].
Qed.

Lemma quiet_visit_reservation r :
  keeps (quiet_since base i T) (visit_reservation w args r) (λ _, True).
Proof.
  unfold visit_reservation. eapply keeps_bind.
  - apply quiet_emit_outside.
  - intros _ _. apply keeps_for_each. intros inst _. apply quiet_visit.
Qed.

Lemma quiet_finish_cycle post rs_post :
  keeps (quiet_since base i T) (finish_cycle w args post rs_post) (λ _, True).
Proof.
  unfold finish_cycle, logging. eapply keeps_bind.
  { apply keeps_for_each. intros inst _. apply quiet_visit. }
  intros _ _. eapply keeps_bind.
  { apply keeps_for_each. intros r _. apply quiet_visit_reservation. }
  intros _ _. eapply keeps_bind; [apply quiet_emit_outside|].
  intros _ _. apply quiet_time_sleep.
Qed.

Lemma quiet_cycle :
  keeps (quiet_since base i T) (cycle w args) (λ _, True).
Proof.
  unfold cycle, describe_instances, logging.
  eapply keeps_bind; [apply quiet_emit_outside|]. intros _ _.
  eapply keeps_bind with (Q := λ _, True).
  { apply keeps_try.
    - eapply keeps_bind.
      + eapply keeps_bind; [apply quiet_emit_outside|].
        intros _ _. apply quiet_ask.
      + intros rs _. by apply keeps_ret.
    - intros e. eapply keeps_bind; [apply quiet_emit_outside|].
      intros _ _. eapply keeps_bind; [apply quiet_time_sleep|].
      intros _ _. by apply keeps_ret. }
  intros [rs|] _; [|by apply keeps_ret].
  eapply keeps_bind.
  { apply keeps_for_each. intros r _. apply quiet_visit_reservation. }
  intros _ _. eapply keeps_bind; [apply quiet_emit_outside|].
  intros _ _. apply quiet_time_sleep.
Qed.

Lemma quiet_run n :
  keeps (quiet_since base i T) (run w args n) (λ _, True).
Proof.
  induction n as [|n IH]; simpl; [by apply keeps_ret|].
  eapply keeps_bind; [apply quiet_cycle|]. intros _ _. exact IH.
Qed.

End Quiet.

(** Once [last_update] holds the timestamp the console of [i] keeps, the
    rest of the cycle and all later cycles deliver nothing for [i]. *)
Lemma quiet_forever w args i T s post rs_post n :
  last_update s !! i = Some T →
  (∀ new r, ec2_get_console_output w (trace s ++ new) i = Ok r → Timestamp r = T) →
  let s' := final ((finish_cycle w args post rs_post >> run w args n) s) in
  last_update s' !! i = Some T ∧ deliveries_for i (new_entries s s') = [].
Proof.
  intros Hlast Hworld s'.
  assert (quiet_since (trace s) i T s') as [Hlast' (new & Htr & Hnew)].
  { eapply keeps_final with (Q := λ _, True).
    - eapply keeps_bind.
      + by apply quiet_finish_cycle.
      + intros _ _. by apply quiet_run.
    - split; [done|]. exists []. by rewrite app_nil_r. }
  split; [done|]. by rewrite (new_entries_app s s' new).
Qed.

(** ** A visit that finds new output *)

Ltac new_entries_of :=
  erewrite new_entries_app by (simpl; assoc_trace; reflexivity).

Section Delivery.
Variable w : world.
Variable args : Args.

Lemma before_file_eq s i t out :
  before_file w args s i t out =
  let s1 :=
    match put_answer w (after_update s i t) (bucket args) i t out with
    | Ok _ =>
        archived (extend (after_update s i t) (put_entries (bucket args) i t out))
          (bucket args) (i +:+ "/" +:+ datetime_str t) out
    | Err e =>
        extend (after_update s i t)
          (put_entries (bucket args) i t out ++
           [mk_entry (Some i)
              (Logging ERROR
                 ("Cannot put object to S3 bucket" +:+ bucket args +:+ ":" +:+ e))])
    end in
  if print args
  then extend s1 (map (λ l, mk_entry (Some i) (StdoutLine l)) (print_block i t out))
  else s1.
Proof.
  unfold before_file, bind. rewrite out_to_s3_eq.
  destruct (print args); unfold when, ret; [rewrite out_to_print_eq|];
    reflexivity.
Qed.

Lemma before_file_returns s i t out :
  (out_to_s3 w (bucket args) i t out >>
   when (print args) (out_to_print i t out)) (after_update s i t)
  = Return tt (before_file w args s i t out).
Proof.
  unfold before_file, bind. rewrite out_to_s3_eq.
  destruct (print args); unfold when, ret; [rewrite out_to_print_eq|];
    reflexivity.
Qed.

Lemma visit_with_output inst s r out :
  fetched w s (InstanceId inst) = Ok r →
  last_update s !! InstanceId inst ≠ Some (Timestamp r) →
  Output r = Some out →
  visit_instance w args inst s =
  when (file args) (out_to_file w (InstanceId inst) (Timestamp r) out)
    (before_file w args s (InstanceId inst) (Timestamp r) out).
Proof.
  intros Hfetch Hnew Hout.
  rewrite (visit_updated_output w args inst s r out Hfetch Hnew Hout).
  pose proof (before_file_returns s (InstanceId inst) (Timestamp r) out) as H.
  unfold bind in *.
  destruct (out_to_s3 w _ _ _ _ _) as [[] s1|e s1]; [|by destruct (print args)].
  by rewrite H.
Qed.

Lemma before_file_last_update s i t out :
  last_update (before_file w args s i t out) = <[i := t]> (last_update s).
Proof.
  rewrite before_file_eq. simpl.
  by destruct (put_answer w _ _ _ _ _), (print args).
Qed.

Lemma before_file_files s i t out :
  files (before_file w args s i t out) = files s.
Proof.
  rewrite before_file_eq. simpl.
  by destruct (put_answer w _ _ _ _ _), (print args).
Qed.

Lemma before_file_objects s i t out :
  objects (before_file w args s i t out) =
  match put_answer w (after_update s i t) (bucket args) i t out with
  | Ok _ => <[(bucket args, i +:+ "/" +:+ datetime_str t) := out]> (objects s)
  | Err _ => objects s
  end.
Proof.
  rewrite before_file_eq. simpl.
  by destruct (put_answer w _ _ _ _ _), (print args).
Qed.

Lemma before_file_trace s i t out :
  ∃ es, trace (before_file w args s i t out) = trace s ++ es ∧
    archive_writes es = [(bucket args, i +:+ "/" +:+ datetime_str t, out)] ∧
    stdout_lines es = (if print args then print_block i t out else []) ∧
    file_opens es = [] ∧ file_prints es = [] ∧ console_fetches es = [i] ∧
    logged WARNING es = [] ∧
    logged ERROR es =
      match put_answer w (after_update s i t) (bucket args) i t out with
      | Ok _ => []
      | Err e => ["Cannot put object to S3 bucket" +:+ bucket args +:+ ":" +:+ e]
      end.
Proof.
  rewrite before_file_eq. simpl.
  destruct (put_answer w _ _ _ _ _), (print args); simpl;
    eexists; (split; [assoc_trace; reflexivity|]); by repeat split.
Qed.

(** After a visit that fetched a console, [last_update] holds its
    timestamp, however the visit ends. *)
Lemma visit_records inst s r :
  fetched w s (InstanceId inst) = Ok r →
  last_update (final (visit_instance w args inst s)) !! InstanceId inst
  = Some (Timestamp r).
Proof.
  intros Hfetch.
  destruct (decide (last_update s !! InstanceId inst = Some (Timestamp r)))
    as [Hseen|Hnew].
  - by rewrite (visit_no_updates w args inst s r Hfetch Hseen).
  - destruct (Output r) as [out|] eqn:Hout.
    + rewrite (visit_with_output inst s r out Hfetch Hnew Hout).
      pose proof (before_file_last_update s (InstanceId inst) (Timestamp r) out)
        as Hlast.
      destruct (file args); simpl.
      * rewrite out_to_file_eq. simpl.
        destruct (open_answer w _ _ _) as [[]|e]; simpl.
        -- destruct (print_answer w _ _ _ _) as [[]|e]; simpl;
             by rewrite Hlast, lookup_insert_eq.
        -- by rewrite Hlast, lookup_insert_eq.
      * by rewrite Hlast, lookup_insert_eq.
    + rewrite (visit_updated_no_output w args inst s r Hfetch Hnew Hout).
      simpl. by rewrite lookup_insert_eq.
Qed.

End Delivery.

(** * The claims *)

(** ** C1: a console without output *)

(** C1, counterexample.  The console of [i-002] has no output and a
    timestamp the loop has not seen: the visit delivers nothing, but it
    does change [last_update], which the claim says is left unchanged. *)
Lemma no_output_changes_last_update :
  fetched calm_world initial_state "i-002" = Ok (mk_response T2 None) ∧
  last_update initial_state !! "i-002" = None ∧
  last_update (final (visit_instance calm_world sample_args i002 initial_state))
    !! "i-002" = Some T2.
Proof. by vm_compute. Qed.

(** A visit that fetches a console without output returns and delivers
    nothing. *)
Lemma no_output_visit w args inst s r :
  fetched w s (InstanceId inst) = Ok r →
  Output r = None →
  returns (visit_instance w args inst s) = true ∧
  deliveries (new_entries s (final (visit_instance w args inst s))) = [] ∧
  files (final (visit_instance w args inst s)) = files s ∧
  objects (final (visit_instance w args inst s)) = objects s.
Proof.
  intros Hfetch Hout.
  destruct (decide (last_update s !! InstanceId inst = Some (Timestamp r)))
    as [Hseen|Hnew].
  - rewrite (visit_no_updates w args inst s r Hfetch Hseen). simpl.
    by rewrite new_entries_extend.
  - rewrite (visit_updated_no_output w args inst s r Hfetch Hnew Hout). simpl.
    new_entries_of. by repeat split.
Qed.

(** C1, as amended.  When the fetched console has no output, the visit
    returns and delivers nothing to any sink; files and S3 objects are
    untouched.  If its timestamp is the one already in [last_update] the
    dictionary is unchanged and no warning is logged; otherwise the
    timestamp is stored for that instance and the warning is logged. *)
Theorem no_output_delivers_nothing w args inst s r :
  fetched w s (InstanceId inst) = Ok r →
  Output r = None →
  let o := visit_instance w args inst s in
  let s' := final o in
  let new := new_entries s s' in
  returns o = true ∧
  deliveries new = [] ∧ files s' = files s ∧ objects s' = objects s ∧
  (last_update s !! InstanceId inst = Some (Timestamp r) →
     last_update s' = last_update s ∧ logged WARNING new = [] ∧
     logged INFO new =
       [ "Retrieving console log for instance " +:+ InstanceId inst;
         "No updates since " +:+ datetime_str (Timestamp r) ]) ∧
  (last_update s !! InstanceId inst ≠ Some (Timestamp r) →
     last_update s' = <[InstanceId inst := Timestamp r]> (last_update s) ∧
     logged WARNING new =
       ["No console output received for instance " +:+ InstanceId inst]).
Proof.
  intros Hfetch Hout o s' new. subst o s' new.
  destruct (decide (last_update s !! InstanceId inst = Some (Timestamp r)))
    as [Hseen|Hnew].
  - rewrite (visit_no_updates w args inst s r Hfetch Hseen). simpl.
    rewrite new_entries_extend. by repeat split.
  - rewrite (visit_updated_no_output w args inst s r Hfetch Hnew Hout). simpl.
    new_entries_of. by repeat split.
Qed.

(** C1, witness: the visit of [i-002] in [calm_world]. *)
Lemma no_output_delivers_nothing_witness :
  let o := visit_instance calm_world sample_args i002 initial_state in
  returns o = true ∧ deliveries (new_entries initial_state (final o)) = [] ∧
  logged WARNING (new_entries initial_state (final o))
    = ["No console output received for instance i-002"].
Proof.
  destruct (no_output_delivers_nothing calm_world sample_args i002 initial_state
              (mk_response T2 None) eq_refl eq_refl)
    as (Hret & Hdel & _ & _ & _ & Hnew).
  split; [exact Hret|]. split; [exact Hdel|].
  apply Hnew. by vm_compute.
Defined.

(** ** C2: novelty is inequality of timestamps *)

(** What a visit that finds a new timestamp and an output adds to the
    history: one fetch, one S3 write, the block on standard output when
    [args.print], one file opened when [args.file]. *)
Lemma visit_output_trace w args inst s r out :
  fetched w s (InstanceId inst) = Ok r →
  last_update s !! InstanceId inst ≠ Some (Timestamp r) →
  Output r = Some out →
  let new := new_entries s (final (visit_instance w args inst s)) in
  console_fetches new = [InstanceId inst] ∧
  archive_writes new =
    [(bucket args, InstanceId inst +:+ "/" +:+ datetime_str (Timestamp r), out)] ∧
  stdout_lines new =
    (if print args then print_block (InstanceId inst) (Timestamp r) out else []) ∧
  file_opens new =
    (if file args then [local_name (InstanceId inst) (Timestamp r)] else []) ∧
  logged ERROR new =
    match put_answer w (after_update s (InstanceId inst) (Timestamp r))
            (bucket args) (InstanceId inst) (Timestamp r) out with
    | Ok _ => []
    | Err e => ["Cannot put object to S3 bucket" +:+ bucket args +:+ ":" +:+ e]
    end.
Proof.
  intros Hfetch Hnew Hout new. subst new.
  rewrite (visit_with_output w args inst s r out Hfetch Hnew Hout).
  destruct (before_file_trace w args s (InstanceId inst) (Timestamp r) out)
    as (es & Htr & Hput & Hprint & Hopen & _ & Hfetches & _ & Herr).
  assert (∀ s' fe, trace s' = trace (before_file w args s (InstanceId inst)
                                       (Timestamp r) out) ++ fe →
          new_entries s s' = es ++ fe) as Hnew_entries.
  { intros s' fe Hs'. apply new_entries_app. by rewrite Hs', Htr, <- app_assoc. }
  destruct (file args); simpl.
  - rewrite out_to_file_eq. simpl.
    destruct (open_answer w _ _ _) as [[]|e]; simpl;
      [destruct (print_answer w _ _ _ _) as [[]|e]; simpl|];
      (erewrite Hnew_entries by (simpl; reflexivity));
      unfold console_fetches, archive_writes, stdout_lines, file_opens,
        logged in *;
      rewrite !omap_app, Hfetches, Hput, Hprint, Hopen, Herr; simpl;
      by rewrite !app_nil_r.
  - erewrite (Hnew_entries _ []) by (by rewrite app_nil_r).
    by rewrite app_nil_r.
Qed.

(** C2, counterexample.  [i-001] was last seen at [T1]; its console now
    has the earlier timestamp [T0] and no output.  The timestamp differs,
    the check says so, and yet nothing is delivered. *)
Lemma changed_timestamp_without_output :
  fetched silent_world seen_T1 "i-001" = Ok (mk_response T0 None) ∧
  last_update seen_T1 !! "i-001" = Some T1 ∧
  no_updates (last_update seen_T1) "i-001" T0 = false ∧
  deliveries (new_entries seen_T1
                (final (visit_instance silent_world sample_args i001 seen_T1))) = [].
Proof. by vm_compute. Qed.

(** C2, as amended.  Take two consecutive observed consoles [r1], [r2] of
    an instance.  The check [no_updates] holds exactly when an entry
    exists and equals the new timestamp, that is exactly when the two
    timestamps are equal.  With equal timestamps the second visit
    delivers nothing and leaves [last_update] alone.  With different
    timestamps (in whichever order) and an output present in [r2], the
    second visit makes exactly one S3 write, prints exactly one block
    when [args.print], opens exactly one file when [args.file], and
    stores the new timestamp; without an output in [r2] it stores the
    new timestamp and delivers nothing. *)
Theorem novelty_is_timestamp_inequality w args inst s1 r1 s2 r2 :
  fetched w s1 (InstanceId inst) = Ok r1 →
  last_update s2 !! InstanceId inst
    = last_update (final (visit_instance w args inst s1)) !! InstanceId inst →
  fetched w s2 (InstanceId inst) = Ok r2 →
  let s3 := final (visit_instance w args inst s2) in
  let new := new_entries s2 s3 in
  (∀ (last : gmap string datetime) t,
     no_updates last (InstanceId inst) t = true ↔
     ∃ seen, last !! InstanceId inst = Some seen ∧ seen = t) ∧
  (no_updates (last_update s2) (InstanceId inst) (Timestamp r2) = true ↔
     Timestamp r2 = Timestamp r1) ∧
  (Timestamp r2 = Timestamp r1 →
     deliveries new = [] ∧ last_update s3 = last_update s2) ∧
  (Timestamp r2 ≠ Timestamp r1 →
     no_updates (last_update s2) (InstanceId inst) (Timestamp r2) = false ∧
     last_update s3 !! InstanceId inst = Some (Timestamp r2) ∧
     (Output r2 = None → deliveries new = []) ∧
     ∀ out, Output r2 = Some out →
       archive_writes new =
         [(bucket args, InstanceId inst +:+ "/" +:+ datetime_str (Timestamp r2), out)] ∧
       stdout_lines new =
         (if print args then print_block (InstanceId inst) (Timestamp r2) out else []) ∧
       file_opens new =
         (if file args then [local_name (InstanceId inst) (Timestamp r2)] else [])).
Proof.
  intros Hfetch1 Hbetween Hfetch2 s3 new. subst s3 new.
  rewrite (visit_records w args inst s1 r1 Hfetch1) in Hbetween.
  split; [|split; [|split]].
  - intros last t. rewrite no_updates_iff. split.
    + intros H. by exists t.
    + by intros (seen & H & <-).
  - rewrite no_updates_iff, Hbetween. split; congruence.
  - intros Heq. rewrite <- Heq in Hbetween.
    rewrite (visit_no_updates w args inst s2 r2 Hfetch2 Hbetween). simpl.
    by rewrite new_entries_extend.
  - intros Hne.
    assert (last_update s2 !! InstanceId inst ≠ Some (Timestamp r2)) as Hnew
      by (rewrite Hbetween; congruence).
    split; [by apply no_updates_false|].
    split; [by apply visit_records|]. split.
    + intros Hout. by apply (no_output_visit w args inst s2 r2).
    + intros out Hout.
      destruct (visit_output_trace w args inst s2 r2 out Hfetch2 Hnew Hout)
        as (_ & Hput & Hprint & Hopen & _).
      by repeat split.
Qed.

(** C2, witness: [i-001] seen at [T1], then seen again at [T1]. *)
Lemma novelty_is_timestamp_inequality_witness :
  let s1 := final (visit_instance calm_world sample_args i001 initial_state) in
  deliveries (new_entries s1 (final (visit_instance calm_world sample_args i001 s1)))
  = [].
Proof.
  intros s1.
  destruct (novelty_is_timestamp_inequality calm_world sample_args i001
              initial_state (mk_response T1 (Some "panic log A"))
              s1 (mk_response T1 (Some "panic log A"))
              eq_refl eq_refl eq_refl) as (_ & _ & Hsame & _).
  by apply Hsame.
Defined.

(** What a visit with the file sink on leaves when the file system
    accepts the file. *)
Lemma visit_file_written w args inst s r out :
  fetched w s (InstanceId inst) = Ok r →
  last_update s !! InstanceId inst ≠ Some (Timestamp r) →
  Output r = Some out →
  file args = true →
  let i := InstanceId inst in
  let name := local_name i (Timestamp r) in
  let s2 := before_file w args s i (Timestamp r) out in
  open_answer w s2 name i = Ok tt →
  print_answer w s2 name i out = Ok tt →
  visit_instance w args inst s =
  Return tt (extend (written s2 name (out +:+ newline)) (print_entries name i out)).
Proof.
  intros Hfetch Hnew Hout Hfile i name s2 Hopen Hprint. subst i name s2.
  rewrite (visit_with_output w args inst s r out Hfetch Hnew Hout), Hfile.
  simpl. rewrite out_to_file_eq. simpl. by rewrite Hopen, Hprint.
Qed.

(** ** C3: a failed S3 write is not retried *)

(** C3.  A visit that finds a new timestamp and an output stores the
    timestamp in [last_update] before it calls [out_to_s3], so the
    timestamp is stored whatever S3 answers.  When S3 refuses the write,
    nothing is stored there, and for as long as the console of the
    instance keeps that timestamp, the rest of the cycle and every later
    cycle deliver nothing for the instance: the write is not tried again. *)
Theorem failed_archive_is_not_retried w args inst s r out :
  fetched w s (InstanceId inst) = Ok r →
  last_update s !! InstanceId inst ≠ Some (Timestamp r) →
  Output r = Some out →
  let i := InstanceId inst in
  let t := Timestamp r in
  let s1 := final (visit_instance w args inst s) in
  last_update (after_update s i t) !! i = Some t ∧
  visit_instance w args inst s =
    (out_to_s3 w (bucket args) i t out >>
     when (print args) (out_to_print i t out) >>
     when (file args) (out_to_file w i t out)) (after_update s i t) ∧
  last_update s1 !! i = Some t ∧
  ∀ e, put_answer w (after_update s i t) (bucket args) i t out = Err e →
    objects s1 = objects s ∧
    ∀ post rs_post n,
      (∀ later r', ec2_get_console_output w (trace s1 ++ later) i = Ok r' →
                   Timestamp r' = t) →
      let s2 := final ((finish_cycle w args post rs_post >> run w args n) s1) in
      deliveries_for i (new_entries s1 s2) = [] ∧
      last_update s2 !! i = Some t.
Proof.
  intros Hfetch Hnew Hout i t s1. subst i t s1.
  split; [by simpl; rewrite lookup_insert_eq|].
  split; [by apply visit_updated_output|].
  split; [by apply visit_records|].
  intros e Hput. split.
  - rewrite (visit_with_output w args inst s r out Hfetch Hnew Hout).
    pose proof (before_file_objects w args s (InstanceId inst) (Timestamp r) out)
      as Hobj.
    rewrite Hput in Hobj.
    destruct (file args); simpl; [|done].
    rewrite out_to_file_eq. simpl.
    destruct (open_answer w _ _ _) as [[]|e1]; simpl; [|done].
    by destruct (print_answer w _ _ _ _) as [[]|e2].
  - intros post rs_post n Hsame s2. subst s2.
    destruct (quiet_forever w args (InstanceId inst) (Timestamp r)
                (final (visit_instance w args inst s)) post rs_post n)
      as [Hlast Hquiet]; [by apply visit_records|done|].
    by split.
Qed.

Lemma s3_down_console h r :
  ec2_get_console_output s3_down_world h "i-001" = Ok r → Timestamp r = T1.
Proof. by intros [= <-]. Qed.

(** C3, witness: S3 is down while [i-001] is seen for the first time;
    two more cycles write nothing for it. *)
Lemma failed_archive_is_not_retried_witness :
  let s1 := final (visit_instance s3_down_world sample_args i001 initial_state) in
  objects s1 = ∅ ∧
  deliveries_for "i-001"
    (new_entries s1
       (final ((finish_cycle s3_down_world sample_args [i002] [] >>
                run s3_down_world sample_args 2) s1))) = [].
Proof.
  intros s1.
  destruct (failed_archive_is_not_retried s3_down_world sample_args i001
              initial_state (mk_response T1 (Some "panic log A")) "panic log A"
              eq_refl ltac:(by vm_compute) eq_refl)
    as (_ & _ & _ & Hfail).
  destruct (Hfail "AccessDenied" eq_refl) as [Hobj Hlater].
  split; [exact Hobj|].
  apply Hlater. intros later r'. apply s3_down_console.
Defined.

(** ** C4: an S3 failure is caught *)

(** C4.  [out_to_s3] never raises, whatever S3 answers.  When S3 raises
    [e] during a delivery, the error is logged, the block is still
    printed when [args.print], the local file is still opened when
    [args.file] (the visit goes on with [out_to_file]) and written when
    the file system accepts it, and the visit returns to the loop. *)
Theorem archive_failure_is_caught w args inst s r out e :
  fetched w s (InstanceId inst) = Ok r →
  last_update s !! InstanceId inst ≠ Some (Timestamp r) →
  Output r = Some out →
  let i := InstanceId inst in
  let t := Timestamp r in
  put_answer w (after_update s i t) (bucket args) i t out = Err e →
  let o := visit_instance w args inst s in
  let new := new_entries s (final o) in
  (∀ b i' t' out' s', returns (out_to_s3 w b i' t' out' s') = true) ∧
  out_to_s3 w (bucket args) i t out (after_update s i t) =
    Return tt
      (extend (after_update s i t)
         (put_entries (bucket args) i t out ++
          [mk_entry (Some i)
             (Logging ERROR
                ("Cannot put object to S3 bucket" +:+ bucket args +:+ ":" +:+ e))])) ∧
  logged ERROR new = ["Cannot put object to S3 bucket" +:+ bucket args +:+ ":" +:+ e] ∧
  stdout_lines new = (if print args then print_block i t out else []) ∧
  file_opens new = (if file args then [local_name i t] else []) ∧
  o = when (file args) (out_to_file w i t out) (before_file w args s i t out) ∧
  (file args = false → returns o = true) ∧
  (file args = true →
     open_answer w (before_file w args s i t out) (local_name i t) i = Ok tt →
     print_answer w (before_file w args s i t out) (local_name i t) i out = Ok tt →
     returns o = true ∧
     files (final o) !! local_name i t = Some (out +:+ newline)).
Proof.
  intros Hfetch Hnew Hout i t Hput o new. subst i t o new.
  destruct (visit_output_trace w args inst s r out Hfetch Hnew Hout)
    as (_ & _ & Hprint & Hopen & Herr).
  rewrite Hput in Herr.
  split; [by intros; rewrite out_to_s3_eq|].
  split; [by rewrite out_to_s3_eq, Hput|].
  repeat split; try done.
  - by apply visit_with_output.
  - intros Hfile.
    rewrite (visit_with_output w args inst s r out Hfetch Hnew Hout).
    by rewrite Hfile.
  - rewrite (visit_file_written w args inst s r out); done.
  - rewrite (visit_file_written w args inst s r out) by done.
    simpl. by rewrite lookup_insert_eq.
Qed.

(** C4, witness: S3 is down, both other sinks are on. *)
Lemma archive_failure_is_caught_witness :
  let o := visit_instance s3_down_world sample_args i001 initial_state in
  logged ERROR (new_entries initial_state (final o))
    = ["Cannot put object to S3 bucketconsole-logs:AccessDenied"] ∧
  stdout_lines (new_entries initial_state (final o))
    = print_block "i-001" T1 "panic log A" ∧
  file_opens (new_entries initial_state (final o)) = ["i-001_2019-03-05T070809"].
Proof.
  destruct (archive_failure_is_caught s3_down_world sample_args i001
              initial_state (mk_response T1 (Some "panic log A")) "panic log A"
              "AccessDenied" eq_refl ltac:(by vm_compute) eq_refl eq_refl)
    as (_ & _ & Herr & Hprint & Hopen & _).
  by repeat split.
Defined.

(** ** C5: the listing fails *)




(** ** C6: a console cannot be fetched *)

(** Every visit fetches the console of its instance. *)
Lemma visit_fetches w args inst s :
  InstanceId inst ∈
    console_fetches (new_entries s (final (visit_instance w args inst s))).
Proof.
  destruct (fetched w s (InstanceId inst)) as [r|e] eqn:Hfetch.
  - destruct (decide (last_update s !! InstanceId inst = Some (Timestamp r)))
      as [Hseen|Hnew].
    + rewrite (visit_no_updates w args inst s r Hfetch Hseen). simpl.
      rewrite new_entries_extend. simpl. by left.
    + destruct (Output r) as [out|] eqn:Hout.
      * destruct (visit_output_trace w args inst s r out Hfetch Hnew Hout)
          as (-> & _). by left.
      * rewrite (visit_updated_no_output w args inst s r Hfetch Hnew Hout).
        simpl. new_entries_of. simpl. by left.
  - rewrite (visit_fetch_failed w args inst s e Hfetch). simpl.
    rewrite new_entries_extend. simpl. by left.
Qed.

(** C6.  When [get_console_output] raises for an instance, the visit
    logs the error with the id of that instance and returns; it delivers
    nothing and leaves [last_update], the files and the objects alone.
    The loop goes on: the instances after it in the reservation are
    visited from the state the failed visit left, the next one has its
    console fetched, and the cycle continues with the rest of its
    reservations. *)
Theorem fetch_failure_skips_the_instance w args inst s e :
  fetched w s (InstanceId inst) = Err e →
  let i := InstanceId inst in
  let s' :=
    extend s (fetch_entries i ++
      [mk_entry (Some i)
         (Logging ERROR ("Cannot retrieve log for instance " +:+ i +:+ ":" +:+ e))]) in
  visit_instance w args inst s = Return tt s' ∧
  logged ERROR (new_entries s s')
    = ["Cannot retrieve log for instance " +:+ i +:+ ":" +:+ e] ∧
  deliveries (new_entries s s') = [] ∧
  last_update s' = last_update s ∧ files s' = files s ∧ objects s' = objects s ∧
  (∀ rest,
     for_each (inst :: rest) (visit_instance w args) s
     = for_each rest (visit_instance w args) s') ∧
  (∀ next rest,
     for_each (inst :: next :: rest) (visit_instance w args) s
     = (visit_instance w args next >> for_each rest (visit_instance w args)) s' ∧
     InstanceId next ∈
       console_fetches (new_entries s' (final (visit_instance w args next s')))) ∧
  (∀ s0 rs_pre pre post rs_post,
     at_visit w args s0 rs_pre pre inst post rs_post s →
     cycle w args s0 = finish_cycle w args post rs_post s').
Proof.
  intros Hfetch i s'. subst i.
  pose proof (visit_fetch_failed w args inst s e Hfetch) as Hvisit.
  fold s' in Hvisit.
  split; [done|]. subst s'. rewrite new_entries_extend.
  repeat split; try done.
  - intros rest. by apply for_each_return.
  - by rewrite (for_each_return _ _ _ _ _ Hvisit).
  - apply visit_fetches.
  - intros s0 rs_pre pre post rs_post Hat.
    rewrite (cycle_at_visit w args _ _ _ _ _ _ _ Hat). unfold bind.
    by rewrite Hvisit.
Qed.

(** C6, witness: the console of [i-001] cannot be fetched, [i-002] is
    processed all the same. *)
Lemma fetch_failure_skips_the_instance_witness :
  archive_writes
    (trace (final (for_each [i001; i002]
                     (visit_instance flaky_world sample_args) initial_state)))
  = [("console-logs", "i-002/2019-03-05 07:08:10.000123+00:00", "panic log B")].
Proof.
  destruct (fetch_failure_skips_the_instance flaky_world sample_args i001
              initial_state "InvalidInstanceID" eq_refl)
    as (_ & _ & _ & _ & _ & _ & Hrest & _).
  rewrite Hrest. by vm_compute.
Defined.

(** ** C7: the S3 key *)

Ltac strip_literal H :=
  apply append_inj_length in H as [_ H]; [|reflexivity].

Ltac strip_digits H Hfield :=
  apply append_inj_length in H as [Hfield H];
    [apply zfill_inj in Hfield; [|digits_bound..]
    |rewrite !zfill_length by digits_bound; reflexivity].

(** [str] is injective on timestamps. *)
Lemma datetime_str_inj t t' :
  valid_datetime t → valid_datetime t' →
  datetime_str t = datetime_str t' → t = t'.
Proof.
  destruct t as [y mo d h mi sec us], t' as [y' mo' d' h' mi' sec' us'].
  unfold valid_datetime, datetime_str. simpl.
  intros (Hy & Hmo & Hd & Hh & Hmi & Hsec & Hus)
         (Hy' & Hmo' & Hd' & Hh' & Hmi' & Hsec' & Hus') Heq.
  strip_digits Heq Ey. strip_literal Heq.
  strip_digits Heq Emo. strip_literal Heq.
  strip_digits Heq Ed. strip_literal Heq.
  strip_digits Heq Eh. strip_literal Heq.
  strip_digits Heq Emi. strip_literal Heq.
  strip_digits Heq Esec.
  assert (us = us') as Eus.
  { destruct (decide (us = 0%N)) as [->|Hnz], (decide (us' = 0%N)) as [->|Hnz'];
      try done.
    rewrite !append_assoc in Heq. strip_literal Heq.
    by strip_digits Heq Eus. }
  congruence.
Qed.

(** [str] of a timestamp has no slash. *)
Lemma datetime_str_no_slash t :
  valid_datetime t → has_char "/" (datetime_str t) = false.
Proof.
  intros (Hy & Hmo & Hd & Hh & Hmi & Hsec & Hus). unfold datetime_str.
  assert (N_of_ascii "/" < 48)%N as Hslash by done.
  rewrite !has_char_append.
  rewrite !(zfill_has_char "/") by (done || digits_bound).
  destruct (decide (microsecond t = 0%N)); [done|].
  rewrite has_char_append, (zfill_has_char "/") by (done || digits_bound).
  done.
Qed.

(** Different (instance, timestamp) pairs have different keys. *)
Lemma archive_key_inj i t i' t' :
  valid_datetime t → valid_datetime t' →
  i +:+ "/" +:+ datetime_str t = i' +:+ "/" +:+ datetime_str t' →
  i = i' ∧ t = t'.
Proof.
  intros Ht Ht' Heq.
  apply (append_inj_last "/" i i' (datetime_str t) (datetime_str t')) in Heq
    as [-> Hstr]; [|by apply datetime_str_no_slash..].
  split; [done|]. by apply datetime_str_inj.
Qed.

(** The objects and the [last_update] a visit leaves are those it had
    when it came to [if args.file]. *)
Lemma visit_output_objects w args inst s r out :
  fetched w s (InstanceId inst) = Ok r →
  last_update s !! InstanceId inst ≠ Some (Timestamp r) →
  Output r = Some out →
  objects (final (visit_instance w args inst s))
  = objects (before_file w args s (InstanceId inst) (Timestamp r) out).
Proof.
  intros Hfetch Hnew Hout.
  rewrite (visit_with_output w args inst s r out Hfetch Hnew Hout).
  destruct (file args); simpl; [|done].
  rewrite out_to_file_eq. simpl.
  destruct (open_answer w _ _ _) as [[]|e1]; simpl; [|done].
  by destruct (print_answer w _ _ _ _) as [[]|e2].
Qed.

(** C7.  A visit that finds a new timestamp and an output calls
    [put_object] exactly once, with the configured bucket, the key
    ["{instanceId}/{timestamp}"] and the output as body; when S3 accepts
    the call the object is stored under that bucket and key.  Different
    (instance, timestamp) pairs get different keys, hence one object per
    pair. *)
Theorem archive_write_key_and_body w args inst s r out :
  fetched w s (InstanceId inst) = Ok r →
  last_update s !! InstanceId inst ≠ Some (Timestamp r) →
  Output r = Some out →
  let i := InstanceId inst in
  let t := Timestamp r in
  let key := i +:+ "/" +:+ datetime_str t in
  let s' := final (visit_instance w args inst s) in
  archive_writes (new_entries s s') = [(bucket args, key, out)] ∧
  (put_answer w (after_update s i t) (bucket args) i t out = Ok tt →
     objects s' = <[(bucket args, key) := out]> (objects s) ∧
     objects s' !! (bucket args, key) = Some out) ∧
  (∀ i2 t2, valid_datetime t → valid_datetime t2 →
     key = i2 +:+ "/" +:+ datetime_str t2 → i = i2 ∧ t = t2).
Proof.
  intros Hfetch Hnew Hout i t key s'. subst i t key s'.
  destruct (visit_output_trace w args inst s r out Hfetch Hnew Hout)
    as (_ & Hput & _).
  split; [done|]. split.
  - intros Hok.
    rewrite (visit_output_objects w args inst s r out Hfetch Hnew Hout).
    rewrite before_file_objects, Hok.
    split; [done|]. by rewrite lookup_insert_eq.
  - intros i2 t2 Ht Ht2 Hkey. by apply archive_key_inj.
Qed.

(** C7, witness: the first visit of [i-001]. *)
Lemma archive_write_key_and_body_witness :
  let s' := final (visit_instance calm_world sample_args i001 initial_state) in
  archive_writes (new_entries initial_state s')
    = [("console-logs", "i-001/2019-03-05 07:08:09+00:00", "panic log A")] ∧
  objects s' !! ("console-logs", "i-001/2019-03-05 07:08:09+00:00")
    = Some "panic log A".
Proof.
  destruct (archive_write_key_and_body calm_world sample_args i001
              initial_state (mk_response T1 (Some "panic log A")) "panic log A"
              eq_refl ltac:(by vm_compute) eq_refl)
    as (Hput & Hstored & _).
  split; [exact Hput|]. by apply Hstored.
Defined.

(** ** C8: the local file *)

(** C8, counterexample.  The console of [i-001] is ["panic log A"]; the
    file the visit writes holds that text and a newline after it, so its
    content is not the raw output. *)
Lemma local_file_has_trailing_newline :
  let s' := final (visit_instance calm_world sample_args i001 initial_state) in
  fetched calm_world initial_state "i-001"
    = Ok (mk_response T1 (Some "panic log A")) ∧
  files s' !! "i-001_2019-03-05T070809" = Some ("panic log A" +:+ newline) ∧
  files s' !! "i-001_2019-03-05T070809" ≠ Some "panic log A".
Proof. by vm_compute. Qed.

(** C8, as amended.  With the file sink on, a visit that finds a new
    timestamp and an output calls [out_to_file], which opens for writing
    the file named ["{instanceId}_{YYYY-MM-DDTHHMMSS}"] (for a real
    timestamp the stamp has 17 characters).  When the file system accepts
    the file, the visit returns and the file holds the output followed by
    a newline, whatever the file held before; no other file changes. *)
Theorem local_file_name_and_content w args inst s r out :
  fetched w s (InstanceId inst) = Ok r →
  last_update s !! InstanceId inst ≠ Some (Timestamp r) →
  Output r = Some out →
  file args = true →
  let i := InstanceId inst in
  let t := Timestamp r in
  let name := local_name i t in
  let s2 := before_file w args s i t out in
  let o := visit_instance w args inst s in
  i +:+ "_" +:+ strftime "%Y-%m-%dT%H%M%S" t = name ∧
  (valid_datetime t → String.length (strftime "%Y-%m-%dT%H%M%S" t) = 17) ∧
  o = out_to_file w i t out s2 ∧
  files s2 = files s ∧
  file_opens (new_entries s (final o)) = [name] ∧
  (open_answer w s2 name i = Ok tt → print_answer w s2 name i out = Ok tt →
     returns o = true ∧
     file_prints (new_entries s (final o)) = [(name, out)] ∧
     files (final o) = <[name := out +:+ newline]> (files s) ∧
     files (final o) !! name = Some (out +:+ newline) ∧
     ∀ other, other ≠ name → files (final o) !! other = files s !! other).
Proof.
  intros Hfetch Hnew Hout Hfile i t name s2 o. subst i t name s2 o.
  destruct (visit_output_trace w args inst s r out Hfetch Hnew Hout)
    as (_ & _ & _ & Hopens & _).
  rewrite Hfile in Hopens.
  split; [apply strftime_eq|]. split.
  { intros Hvalid. rewrite strftime_stamp. by apply stamp_length. }
  split.
  { rewrite (visit_with_output w args inst s r out Hfetch Hnew Hout).
    by rewrite Hfile. }
  split; [apply before_file_files|]. split; [done|].
  intros Hopen Hprint.
  rewrite (visit_file_written w args inst s r out
             Hfetch Hnew Hout Hfile Hopen Hprint).
  split; [done|]. simpl.
  destruct (before_file_trace w args s (InstanceId inst) (Timestamp r) out)
    as (es & Htr & _ & _ & _ & Hprints & _).
  split.
  { erewrite (new_entries_app s _ (es ++ _))
      by (simpl; rewrite Htr, <- app_assoc; reflexivity).
    unfold file_prints in *. by rewrite omap_app, Hprints. }
  rewrite before_file_files.
  split; [done|]. split; [by rewrite lookup_insert_eq|].
  intros other Hother. by rewrite lookup_insert_ne.
Qed.

(** C8, witness: the first visit of [i-001], where an older file of
    that name exists. *)
Lemma local_file_name_and_content_witness :
  let s0 := written initial_state "i-001_2019-03-05T070809" "old content" in
  files (final (visit_instance calm_world sample_args i001 s0))
    !! "i-001_2019-03-05T070809"
  = Some ("panic log A" +:+ newline).
Proof.
  intros s0.
  destruct (local_file_name_and_content calm_world sample_args i001 s0
              (mk_response T1 (Some "panic log A")) "panic log A"
              eq_refl ltac:(by vm_compute) eq_refl eq_refl)
    as (_ & _ & _ & _ & _ & Hwritten).
  destruct (Hwritten eq_refl eq_refl) as (_ & _ & _ & Hcontent & _).
  exact Hcontent.
Defined.

(** ** C9: a timestamp first seen without output *)

Lemma late_output_console h r :
  ec2_get_console_output late_output_world h "i-001" = Ok r → Timestamp r = T1.
Proof. by intros [= <-]. Qed.

(** C9.  A visit that fetches a console without output leaves its
    timestamp [T] in [last_update] and delivers nothing.  From then on,
    whenever a console of that instance with the timestamp [T] is
    fetched, with or without output, the visit finds no update: it
    delivers nothing and keeps [T].  So for as long as the console keeps
    [T], the rest of the cycle and all later cycles deliver nothing for
    the instance. *)
Theorem output_arriving_late_is_never_delivered w args inst s r :
  fetched w s (InstanceId inst) = Ok r →
  Output r = None →
  let i := InstanceId inst in
  let T := Timestamp r in
  let s1 := final (visit_instance w args inst s) in
  last_update s1 !! i = Some T ∧
  deliveries (new_entries s s1) = [] ∧
  (∀ s2 r2, last_update s2 !! i = Some T →
     fetched w s2 i = Ok r2 → Timestamp r2 = T →
     let s3 := final (visit_instance w args inst s2) in
     deliveries (new_entries s2 s3) = [] ∧ last_update s3 = last_update s2) ∧
  (∀ post rs_post n,
     (∀ later r', ec2_get_console_output w (trace s1 ++ later) i = Ok r' →
                  Timestamp r' = T) →
     let s2 := final ((finish_cycle w args post rs_post >> run w args n) s1) in
     deliveries_for i (new_entries s1 s2) = [] ∧ last_update s2 !! i = Some T).
Proof.
  intros Hfetch Hout i T s1. subst i T s1.
  destruct (no_output_visit w args inst s r Hfetch Hout)
    as (_ & Hdel & _).
  split; [by apply visit_records|]. split; [done|]. split.
  - intros s2 r2 Hseen Hfetch2 Hr2. rewrite <- Hr2 in Hseen. simpl.
    rewrite (visit_no_updates w args inst s2 r2 Hfetch2 Hseen). simpl.
    by rewrite new_entries_extend.
  - intros post rs_post n Hsame s2. subst s2.
    destruct (quiet_forever w args (InstanceId inst) (Timestamp r)
                (final (visit_instance w args inst s)) post rs_post n)
      as [Hlast Hquiet]; [by apply visit_records|done|].
    by split.
Qed.

(** C9, witness: the console of [i-001] has no output at first; the
    output that appears later under the same timestamp is not delivered
    in the next three cycles. *)
Lemma output_arriving_late_is_never_delivered_witness :
  let s1 := final (visit_instance late_output_world sample_args i001 initial_state) in
  fetched late_output_world s1 "i-001" = Ok (mk_response T1 (Some "panic log A")) ∧
  deliveries_for "i-001"
    (new_entries s1
       (final ((finish_cycle late_output_world sample_args [] [] >>
                run late_output_world sample_args 3) s1))) = [].
Proof.
  intros s1. split; [by vm_compute|].
  destruct (output_arriving_late_is_never_delivered late_output_world sample_args
              i001 initial_state (mk_response T1 None) eq_refl eq_refl)
    as (_ & _ & _ & Hlater).
  apply Hlater. intros later r'. apply late_output_console.
Defined.

(** ** C10: the local file cannot be written *)

(** C10.  With the file sink on, an exception [e] raised by [open] or by
    the [print] into the file leaves [out_to_file] and the visit: nothing
    catches it.  It leaves the loop over the instances, so the instances
    after this one are not visited and no other console is fetched, and
    it leaves the cycle and the [while] loop: the process ends.  An
    exception of [put_object], by contrast, never leaves [out_to_s3]. *)
Theorem local_file_failure_ends_the_process w args inst s r out e :
  fetched w s (InstanceId inst) = Ok r →
  last_update s !! InstanceId inst ≠ Some (Timestamp r) →
  Output r = Some out →
  file args = true →
  let i := InstanceId inst in
  let t := Timestamp r in
  let name := local_name i t in
  let s2 := before_file w args s i t out in
  open_answer w s2 name i = Err e ∨
    (open_answer w s2 name i = Ok tt ∧ print_answer w s2 name i out = Err e) →
  ∃ s',
    visit_instance w args inst s = Raise e s' ∧
    console_fetches (new_entries s s') = [i] ∧
    (∀ rest, for_each (inst :: rest) (visit_instance w args) s = Raise e s') ∧
    (∀ s0 rs_pre pre post rs_post,
       at_visit w args s0 rs_pre pre inst post rs_post s →
       cycle w args s0 = Raise e s' ∧
       ∀ n, run w args (S n) s0 = Raise e s') ∧
    (∀ b i' t' out' s'', returns (out_to_s3 w b i' t' out' s'') = true).
Proof.
  intros Hfetch Hnew Hout Hfile i t name s2 Hfail. subst i t name s2.
  destruct (visit_output_trace w args inst s r out Hfetch Hnew Hout)
    as (Hfetches & _).
  pose proof (visit_with_output w args inst s r out Hfetch Hnew Hout) as Hvisit.
  rewrite Hfile in Hvisit. simpl in Hvisit. rewrite out_to_file_eq in Hvisit.
  simpl in Hvisit.
  assert (∃ s', visit_instance w args inst s = Raise e s') as [s' Hraise].
  { rewrite Hvisit. destruct Hfail as [->|[-> ->]]; eauto. }
  exists s'. split; [done|]. rewrite Hraise in Hfetches. simpl in Hfetches.
  split; [done|]. split; [|split].
  - intros rest. by apply for_each_raise.
  - intros s0 rs_pre pre post rs_post Hat.
    assert (cycle w args s0 = Raise e s') as Hcycle.
    { rewrite (cycle_at_visit w args _ _ _ _ _ _ _ Hat). unfold bind.
      by rewrite Hraise. }
    split; [done|]. intros n. by apply run_raise.
  - intros. by rewrite out_to_s3_eq.
Qed.

(** C10, witness: no file can be opened; the first cycle ends the
    process before [i-002] is visited. *)
Lemma local_file_failure_ends_the_process_witness :
  let s :=
    extend initial_state
      (list_entries "monitor" ++ [mk_entry None (LoggingInstances [i001; i002])]) in
  ∃ s', run readonly_world sample_args 5 initial_state
          = Raise "Permission denied" s' ∧
        console_fetches (new_entries s s') = ["i-001"].
Proof.
  intros s.
  destruct (local_file_failure_ends_the_process readonly_world sample_args i001 s
              (mk_response T1 (Some "panic log A")) "panic log A"
              "Permission denied"
              eq_refl ltac:(by vm_compute) eq_refl eq_refl
              (or_introl eq_refl))
    as (s' & _ & Hfetches & _ & Hcycle & _).
  exists s'. split; [|exact Hfetches].
  apply (Hcycle initial_state [] [] [i002] []).
  exists (extend initial_state (list_entries "monitor")).
  split; [reflexivity|]. split; reflexivity.
Defined.

(** * Further properties of the script *)

(** ** What a run is allowed to do *)

Lemma keeps_when_true (I : state → Prop) (b : bool) (m : M unit) :
  (b = true → keeps I m (λ _, True)) → keeps I (when b m) (λ _, True).
Proof. intros Hm. destruct b; simpl; [by apply Hm|]. by apply keeps_ret. Qed.

Section Since.
Variable w : world.
Variable args : Args.
Variable s0 : state.

Lemma since_refl : since args s0 s0.
Proof.
  split; [|done]. exists []. split; [by rewrite app_nil_r|constructor].
Qed.

Lemma since_emit sc e :
  allowed args (mk_entry sc e) →
  keeps (since args s0) (emit sc e) (λ _, True).
Proof.
  intros Hallowed s [(new & Htr & Hnew) Hrest]. simpl.
  split; [|done]. split; [|done].
  exists (new ++ [mk_entry sc e]). split.
  - by rewrite Htr, <- app_assoc.
  - apply Forall_app. split; [done|]. by repeat constructor.
Qed.

Lemma since_ask {A} (q : world → list entry → result A) :
  keeps (since args s0) (ask w q) (λ _, True).
Proof. intros s HI. unfold ask. by destruct (q w (trace s)). Qed.

Lemma since_set_last_update i t :
  keeps (since args s0) (set_last_update i t) (λ _, True).
Proof.
  intros s (Htr & Hfiles & Hlast & Hobj). simpl.
  split; [|done]. split; [done|]. split; [done|]. split; [|done].
  intros j Hj. simpl. destruct (decide (i = j)) as [->|Hne].
  - rewrite lookup_insert_eq. by eexists.
  - rewrite lookup_insert_ne by done. by apply Hlast.
Qed.

Lemma since_get_last_update :
  keeps (since args s0) get_last_update (λ _, True).
Proof. by intros s HI. Qed.

Lemma since_store_object k v :
  keeps (since args s0) (store_object (bucket args) k v) (λ _, True).
Proof.
  intros s (Htr & Hfiles & Hlast & Hobj). simpl.
  split; [|done]. split; [done|]. split; [done|]. split; [done|].
  intros b k' Hb. simpl. rewrite lookup_insert_ne by congruence. by apply Hobj.
Qed.

Lemma since_set_file f c :
  file args = true → keeps (since args s0) (set_file f c) (λ _, True).
Proof.
  intros Hfile s (Htr & Hfiles & Hlast & Hobj). simpl.
  split; [|done]. split; [done|]. split; [|done].
  intros Hoff. congruence.
Qed.

Lemma since_get_file f :
  keeps (since args s0) (get_file f) (λ _, True).
Proof. by intros s HI. Qed.

Lemma since_seq {A B} (m : M A) (k : A → M B) :
  keeps (since args s0) m (λ _, True) →
  (∀ a, keeps (since args s0) (k a) (λ _, True)) →
  keeps (since args s0) (bind m k) (λ _, True).
Proof. intros Hm Hk. eapply keeps_bind; [exact Hm|]. intros a _. apply Hk. Qed.

Lemma since_time_sleep :
  keeps (since args s0) (time_sleep (interval args)) (λ _, True).
Proof.
  intros s HI.
  destruct (decide (0 ≤ interval args ≤ max_sleep)%Z) as [Hin|Hout].
  - rewrite time_sleep_ok by done.
    apply (since_emit None (Sleep (interval args))); [|done].
    split; [done|]. simpl. lia.
  - by rewrite time_sleep_refused.
Qed.

Lemma since_out_to_s3 i t out :
  keeps (since args s0) (out_to_s3 w (bucket args) i t out) (λ _, True).
Proof.
  unfold out_to_s3, put_object, logging.
  apply since_seq; [by apply since_emit|]. intros _.
  apply keeps_try.
  - apply since_seq.
    { apply since_emit. split; [done|]. by exists i, t. }
    intros _. apply since_seq; [apply since_ask|]. intros _.
    apply since_store_object.
  - intros e. by apply since_emit.
Qed.

Lemma since_out_to_print i t out :
  print args = true →
  keeps (since args s0) (out_to_print i t out) (λ _, True).
Proof.
  intros Hprint. unfold out_to_print, print_stdout.
  repeat (apply since_seq; [by apply since_emit|]; intros _).
  by apply since_emit.
Qed.

Lemma since_out_to_file i t out :
  file args = true →
  keeps (since args s0) (out_to_file w i t out) (λ _, True).
Proof.
  intros Hfile. unfold out_to_file, open_w, print_to_file, logging.
  rewrite strftime_eq.
  assert (∀ e, ev e = FileOpen (local_name i t) ∨
               (∃ c, ev e = FilePrint (local_name i t) c) →
               scope e = Some i → allowed args e) as Hname.
  { intros e [He|[c He]] Hsc; unfold allowed; rewrite He;
      (split; [done|]); by exists i, t. }
  apply since_seq.
  { apply since_seq; [apply since_emit, Hname; [by left|done]|]. intros _.
    apply since_seq; [apply since_ask|]. intros _. by apply since_set_file. }
  intros _. apply since_seq; [by apply since_emit|]. intros _.
  apply since_seq; [apply since_emit, Hname; [right; by eexists|done]|]. intros _.
  apply since_seq; [apply since_ask|]. intros _.
  apply since_seq; [apply since_get_file|]. intros old.
  by apply since_set_file.
Qed.

Lemma since_visit inst :
  keeps (since args s0) (visit_instance w args inst) (λ _, True).
Proof.
  unfold visit_instance, get_console_output, logging.
  apply since_seq; [by apply since_emit|]. intros _.
  apply since_seq.
  { apply keeps_try.
    - apply since_seq.
      + apply since_seq; [by apply since_emit|]. intros _. apply since_ask.
      + intros r. by apply keeps_ret.
    - intros e. apply since_seq; [by apply since_emit|]. intros _.
      by apply keeps_ret. }
  intros [r|]; [|by apply keeps_ret].
  apply since_seq; [apply since_get_last_update|]. intros last.
  destruct (no_updates last (InstanceId inst) (Timestamp r));
    [by apply since_emit|].
  apply since_seq; [by apply since_emit|]. intros _.
  apply since_seq; [apply since_set_last_update|]. intros _.
  destruct (Output r) as [out|]; [|by apply since_emit].
  apply since_seq; [apply since_out_to_s3|]. intros _.
  apply since_seq.
  { apply keeps_when_true. intros Hprint. by apply since_out_to_print. }
  intros _. apply keeps_when_true. intros Hfile. by apply since_out_to_file.
Qed.

Lemma since_visit_reservation r :
  keeps (since args s0) (visit_reservation w args r) (λ _, True).
Proof.
  unfold visit_reservation. apply since_seq; [by apply since_emit|].
  intros _. apply keeps_for_each. intros inst _. apply since_visit.
Qed.

Lemma since_cycle :
  keeps (since args s0) (cycle w args) (λ _, True).
Proof.
  unfold cycle, describe_instances, logging.
  apply since_seq; [by apply since_emit|]. intros _.
  apply since_seq.
  { apply keeps_try.
    - apply since_seq.
      + apply since_seq; [by apply since_emit|]. intros _. apply since_ask.
      + intros rs. by apply keeps_ret.
    - intros e. apply since_seq; [by apply since_emit|]. intros _.
      apply since_seq; [apply since_time_sleep|]. intros _.
      by apply keeps_ret. }
  intros [rs|]; [|by apply keeps_ret].
  apply since_seq.
  { apply keeps_for_each. intros r _. apply since_visit_reservation. }
  intros _. apply since_seq; [by apply since_emit|]. intros _.
  apply since_time_sleep.
Qed.

Lemma since_run n :
  keeps (since args s0) (run w args n) (λ _, True).
Proof.
  induction n as [|n IH]; simpl; [by apply keeps_ret|].
  apply since_seq; [apply since_cycle|]. intros _. exact IH.
Qed.

End Since.

(** The state any number of cycles leave, however they end. *)
Lemma run_since w args n s : since args s (final (run w args n s)).
Proof.
  eapply keeps_final; [apply since_run|apply since_refl].
Qed.

Lemma omap_none {A B} (f : A → option B) (l : list A) :
  Forall (λ x, f x = None) l → omap f l = [].
Proof.
  induction 1 as [|x l Hx _ IH]; [done|]. csimpl. by rewrite Hx, IH.
Qed.

(** X1.  Without [--print], no number of cycles writes a line on
    standard output, whatever the services answer and however the run
    ends. *)
Theorem nothing_printed_without_print_flag w args n s :
  print args = false →
  stdout_lines (new_entries s (final (run w args n s))) = [].
Proof.
  intros Hprint.
  destruct (run_since w args n s) as [(new & Htr & Hnew) _].
  rewrite (new_entries_app _ _ _ Htr). apply omap_none.
  eapply Forall_impl; [exact Hnew|]. intros en Hen. simpl in *.
  unfold allowed in Hen. destruct (ev en); try done. congruence.
Qed.

(** X1, witness: two cycles with S3 as the only sink. *)
Lemma nothing_printed_without_print_flag_witness :
  stdout_lines
    (new_entries initial_state (final (run calm_world s3_only_args 2 initial_state)))
  = [].
Proof.
  apply (nothing_printed_without_print_flag calm_world s3_only_args 2 initial_state).
  reflexivity.
Defined.

(** X2.  Without [--file], no number of cycles opens or writes a local
    file: the files are what they were. *)
Theorem no_file_written_without_file_flag w args n s :
  file args = false →
  let s' := final (run w args n s) in
  file_opens (new_entries s s') = [] ∧
  file_prints (new_entries s s') = [] ∧
  files s' = files s.
Proof.
  intros Hfile s'. subst s'.
  destruct (run_since w args n s) as ((new & Htr & Hnew) & Hfiles & _).
  rewrite (new_entries_app _ _ _ Htr).
  split; [|split; [|by apply Hfiles]]; apply omap_none;
    (eapply Forall_impl; [exact Hnew|]); intros en Hen; simpl in *;
    unfold allowed in Hen; destruct (ev en); try done;
    destruct Hen; congruence.
Qed.

(** X2, witness: two cycles with S3 as the only sink. *)
Lemma no_file_written_without_file_flag_witness :
  files (final (run calm_world s3_only_args 2 initial_state)) = ∅.
Proof.
  destruct (no_file_written_without_file_flag calm_world s3_only_args 2
              initial_state eq_refl) as (_ & _ & Hfiles).
  exact Hfiles.
Defined.


(** X4.  No number of cycles removes an entry of [last_update]: an
    instance that has a last-seen timestamp keeps one. *)
Theorem last_update_entries_are_never_removed w args n s j :
  is_Some (last_update s !! j) →
  is_Some (last_update (final (run w args n s)) !! j).
Proof.
  intros Hj. destruct (run_since w args n s) as (_ & _ & Hlast & _).
  by apply Hlast.
Qed.

(** X4, witness: [i-001] is no longer listed, its entry stays. *)
Lemma last_update_entries_are_never_removed_witness :
  is_Some (last_update (final (run ec2_down_world sample_args 3 seen_T1)) !! "i-001").
Proof.
  apply (last_update_entries_are_never_removed ec2_down_world sample_args 3
           seen_T1 "i-001").
  exists T1. reflexivity.
Defined.

(** ** What can end the process *)

Lemma never_raises_ret {A} (a : A) : never_raises (ret a).
Proof. by intros s. Qed.

Lemma never_raises_emit sc e : never_raises (emit sc e).
Proof. by intros s. Qed.

Lemma never_raises_bind {A B} (m : M A) (k : A → M B) :
  never_raises m → (∀ a, never_raises (k a)) → never_raises (bind m k).
Proof.
  intros Hm Hk s. unfold bind. specialize (Hm s).
  destruct (m s) as [a s'|e s']; [apply Hk|done].
Qed.

(** A [try] whose handler raises nothing raises nothing. *)
Lemma never_raises_try {A} (m : M A) (h : exn → M A) :
  (∀ e, never_raises (h e)) → never_raises (try_except m h).
Proof.
  intros Hh s. unfold try_except.
  destruct (m s) as [a s'|e s']; [done|apply Hh].
Qed.

Lemma never_raises_for_each {A} (l : list A) (body : A → M unit) :
  (∀ x, never_raises (body x)) → never_raises (for_each l body).
Proof.
  intros Hbody. induction l as [|x l IH]; simpl.
  - apply never_raises_ret.
  - apply never_raises_bind; [apply Hbody|]. intros _. exact IH.
Qed.


Lemma never_raises_out_to_s3 w b i t out : never_raises (out_to_s3 w b i t out).
Proof. intros s. by rewrite out_to_s3_eq. Qed.

Lemma never_raises_out_to_print i t out : never_raises (out_to_print i t out).
Proof. intros s. by rewrite out_to_print_eq. Qed.

Section Survives.
Variable w : world.
Variable args : Args.

(** The file sink is off, and the block printed with [--print], if any,
    is printed without an exception. *)
Hypothesis file_off : file args = false.
Hypothesis print_safe :
  print args = true → ∀ i t out, never_raises (out_to_print i t out).

Lemma survives_visit inst : never_raises (visit_instance w args inst).
Proof.
  unfold visit_instance, logging.
  apply never_raises_bind; [apply never_raises_emit|]. intros _.
  apply never_raises_bind.
  { apply never_raises_try. intros e.
    apply never_raises_bind; [apply never_raises_emit|]. intros _.
    apply never_raises_ret. }
  intros [r|]; [|apply never_raises_ret].
  apply never_raises_bind; [by intros s|]. intros last.
  destruct (no_updates last (InstanceId inst) (Timestamp r));
    [apply never_raises_emit|].
  apply never_raises_bind; [apply never_raises_emit|]. intros _.
  apply never_raises_bind; [by intros s|]. intros _.
  destruct (Output r) as [out|]; [|apply never_raises_emit].
  apply never_raises_bind; [apply never_raises_out_to_s3|]. intros _.
  apply never_raises_bind.
  { destruct (print args) eqn:Hprint; simpl;
      [by apply print_safe|apply never_raises_ret]. }
  intros _. rewrite file_off. apply never_raises_ret.
Qed.

Lemma survives_visit_reservation r : never_raises (visit_reservation w args r).
Proof.
  unfold visit_reservation.
  apply never_raises_bind; [apply never_raises_emit|]. intros _.
  apply never_raises_for_each. intros inst. apply survives_visit.
Qed.


End Survives.

Lemma never_raises_visit_reservation w args r :
  file args = false → never_raises (visit_reservation w args r).
Proof.
  intros Hfile. apply survives_visit_reservation; [done|].
  intros _ i t out. apply never_raises_out_to_print.
Qed.



(** X6.  With a negative interval no cycle returns: whatever the
    services answer, the first cycle ends the process, and with the file
    sink off it does so with the exception of [time.sleep], which is the
    [ValueError] down to minus 9223372036 seconds and the [OverflowError]
    below. *)
Theorem negative_interval_ends_the_first_cycle w args s :
  (interval args < 0)%Z →
  returns (cycle w args s) = false ∧
  (∀ n, returns (run w args (S n) s) = false) ∧
  (file args = false →
     ∃ s', cycle w args s = Raise (sleep_error (interval args)) s') ∧
  ((- max_sleep ≤ interval args)%Z →
     sleep_error (interval args) = "sleep length must be non-negative").
Proof.
  intros Hneg.
  assert (∀ s1, time_sleep (interval args) s1
                = Raise (sleep_error (interval args)) s1) as Hsleep.
  { intros s1. apply time_sleep_refused. lia. }
  assert (returns (cycle w args s) = false ∧
          (file args = false →
             ∃ s', cycle w args s = Raise (sleep_error (interval args)) s'))
    as [Hcycle Hvalue].
  { destruct (listed w args s) as [rs|e] eqn:Hlist.
    - rewrite (cycle_listed w args s rs Hlist). unfold bind, finish_cycle.
      simpl. unfold bind, ret.
      pose proof (never_raises_for_each rs (visit_reservation w args)) as Hsafe.
      destruct (for_each rs (visit_reservation w args) _) as [[] s1|e s1] eqn:Hloop.
      + run_script. rewrite Hsleep. split; [done|]. by eexists.
      + split; [done|]. intros Hfile.
        specialize (Hsafe (λ r, never_raises_visit_reservation w args r Hfile)
                      (extend s (list_entries (tag args)))).
        by rewrite Hloop in Hsafe.
    - rewrite (cycle_listing_failed w args s e Hlist), Hsleep.
      split; [done|]. by eexists. }
  split; [done|]. split; [|split; [done|]].
  - intros n. simpl. unfold bind.
    by destruct (cycle w args s) as [[] s1|e s1].
  - intros Hfits. unfold sleep_error. rewrite decide_False; [done|].
    unfold max_sleep in *. lia.
Qed.

(** X6, witness: an interval of minus five seconds. *)
Lemma negative_interval_ends_the_first_cycle_witness :
  returns (run calm_world negative_interval_args 3 initial_state) = false.
Proof.
  destruct (negative_interval_ends_the_first_cycle calm_world
              negative_interval_args initial_state ltac:(by vm_compute))
    as (_ & Hrun & _).
  apply Hrun.
Defined.

(** ** The order of the visits *)

Lemma grows_new_entries s s' :
  (∃ es, trace s' = trace s ++ es) → trace s' = trace s ++ new_entries s s'.
Proof. intros [es Hes]. by rewrite (new_entries_app s s' es Hes). Qed.

(** Every visit fetches the console of its instance once, and no other. *)
Lemma visit_fetch_report w args inst s :
  fetch_report [InstanceId inst] (visit_instance w args inst s) s.
Proof.
  exists (new_entries s (final (visit_instance w args inst s))).
  split.
  { apply grows_new_entries.
    destruct (visit_touches_only w args inst s) as [(es & Hes & _) _]. eauto. }
  assert (console_fetches (new_entries s (final (visit_instance w args inst s)))
          = [InstanceId inst]) as ->; [|done].
  destruct (fetched w s (InstanceId inst)) as [r|e] eqn:Hfetch.
  - destruct (decide (last_update s !! InstanceId inst = Some (Timestamp r)))
      as [Hseen|Hnew].
    + rewrite (visit_no_updates w args inst s r Hfetch Hseen). simpl.
      by rewrite new_entries_extend.
    + destruct (Output r) as [out|] eqn:Hout.
      * by destruct (visit_output_trace w args inst s r out Hfetch Hnew Hout).
      * rewrite (visit_updated_no_output w args inst s r Hfetch Hnew Hout).
        simpl. by new_entries_of.
  - rewrite (visit_fetch_failed w args inst s e Hfetch). simpl.
    by rewrite new_entries_extend.
Qed.

(** A loop fetches what its iterations fetch, in the order of the list,
    up to the iteration an exception leaves. *)
Lemma for_each_fetch_report {A} (ids : A → list string) (body : A → M unit) l :
  (∀ x s, fetch_report (ids x) (body x s) s) →
  ∀ s, fetch_report (concat (map ids l)) (for_each l body s) s.
Proof.
  intros Hbody. induction l as [|x l IH]; intros s; simpl.
  - exists []. by rewrite app_nil_r.
  - unfold bind. destruct (Hbody x s) as (es1 & Htr1 & Hpre1 & Hall1).
    destruct (body x s) as [[] s1|e s1]; simpl in *.
    + destruct (IH s1) as (es2 & Htr2 & Hpre2 & Hall2).
      exists (es1 ++ es2). split; [by rewrite Htr2, Htr1, <- app_assoc|].
      unfold console_fetches in *. rewrite omap_app, Hall1 by done. split.
      * by apply prefix_app.
      * intros Hret. by rewrite Hall2.
    + exists es1. split; [done|]. split; [|done].
      by apply prefix_app_r.
Qed.

Lemma concat_map_singleton {A B} (f : A → B) (l : list A) :
  concat (map (λ x, [f x]) l) = map f l.
Proof. induction l as [|x l IH]; [done|]. simpl. by rewrite IH. Qed.

Lemma visit_reservation_fetch_report w args r s :
  fetch_report (map InstanceId (Instances r)) (visit_reservation w args r s) s.
Proof.
  change (visit_reservation w args r s)
    with (for_each (Instances r) (visit_instance w args)
            (extend s [mk_entry None (LoggingInstances (Instances r))])).
  destruct (for_each_fetch_report (λ inst, [InstanceId inst])
              (visit_instance w args) (Instances r)
              (visit_fetch_report w args)
              (extend s [mk_entry None (LoggingInstances (Instances r))]))
    as (es & Htr & Hpre & Hall).
  rewrite concat_map_singleton in Hpre, Hall.
  exists (mk_entry None (LoggingInstances (Instances r)) :: es).
  split; [|done]. rewrite Htr. simpl. by rewrite <- app_assoc.
Qed.

(** X7.  A cycle whose listing returned fetches the consoles of the
    listed instances in the order of the listing, each once: all of them
    when the cycle returns, and then the sleep of [args.interval] seconds
    is the last thing it does; the first few of them when an exception
    ends the cycle. *)
Theorem cycle_fetches_in_listing_order w args s rs :
  listed w args s = Ok rs →
  let o := cycle w args s in
  let new := new_entries s (final o) in
  console_fetches new `prefix_of` listed_ids rs ∧
  (returns o = true →
     console_fetches new = listed_ids rs ∧
     last new = Some (mk_entry None (Sleep (interval args)))).
Proof.
  intros Hlist o new. subst o new.
  rewrite (cycle_listed w args s rs Hlist). unfold bind.
  destruct (for_each_fetch_report (λ r, map InstanceId (Instances r))
              (visit_reservation w args) rs
              (visit_reservation_fetch_report w args)
              (extend s (list_entries (tag args))))
    as (es & Htr & Hpre & Hall).
  fold (listed_ids rs) in Hpre, Hall.
  destruct (for_each rs (visit_reservation w args) _) as [[] s1|e s1];
    simpl in *.
  - specialize (Hall eq_refl).
    assert (∀ tl x s2, trace s2 = trace s1 ++ tl ++ [x] →
              console_fetches (tl ++ [x]) = [] →
              console_fetches (new_entries s s2) = listed_ids rs ∧
              last (new_entries s s2) = Some x) as Htail.
    { intros tl x s2 Hs2 Htl.
      rewrite (new_entries_app s s2
                 ((list_entries (tag args) ++ es ++ tl) ++ [x]))
        by (by rewrite Hs2, Htr, <- !app_assoc).
      split; [|apply last_snoc].
      unfold console_fetches in *. rewrite <- !app_assoc.
      rewrite omap_app, (omap_app _ es), Hall, Htl. simpl.
      by rewrite app_nil_r. }
    unfold finish_cycle. run_script.
    match goal with
    | |- context [time_sleep ?secs ?st] =>
        destruct (time_sleep_cases secs st) as [-> | ->]
    end; simpl.
    + match goal with
      | |- context [new_entries s ?s2] =>
          destruct (Htail
            [mk_entry None
               (Logging INFO
                  ("Sleeping for " +:+ pretty (interval args) +:+ " seconds, "
                   +:+ "press Ctrl+C to interrupt..."))]
            (mk_entry None (Sleep (interval args))) s2) as [-> ->]
      end; [by (simpl; rewrite <- app_assoc)|reflexivity|].
      by split.
    + edestruct (Htail []) as [-> _]; [reflexivity|reflexivity|]. by split.
  - rewrite (new_entries_app s s1 (list_entries (tag args) ++ es))
      by (by rewrite Htr, <- !app_assoc).
    unfold console_fetches in *. rewrite omap_app. by split.
Qed.

(** X7, witness: the two instances of [calm_world]. *)
Lemma cycle_fetches_in_listing_order_witness :
  console_fetches
    (new_entries initial_state (final (cycle calm_world sample_args initial_state)))
  = ["i-001"; "i-002"].
Proof.
  destruct (cycle_fetches_in_listing_order calm_world sample_args initial_state
              [mk_reservation [i001; i002]] eq_refl) as [_ Hall].
  by destruct (Hall ltac:(by vm_compute)).
Defined.

(** ** Instances that are not listed *)

Lemma keeps_of_final {A} (I : state → Prop) (m : M A) :
  (∀ s, I s → I (final (m s))) → keeps I m (λ _, True).
Proof.
  intros Hm s HI. specialize (Hm s HI).
  by destruct (m s) as [a s'|e s'].
Qed.

Section Unlisted.
Variable w : world.
Variable args : Args.
Variable j : string.
Variable seen : option datetime.

(** The entry of [j] in [last_update] is [seen]. *)
Let entry_is (s : state) : Prop := last_update s !! j = seen.

Lemma unlisted_emit sc e : keeps entry_is (emit sc e) (λ _, True).
Proof. by intros s HI. Qed.

Lemma unlisted_time_sleep secs : keeps entry_is (time_sleep secs) (λ _, True).
Proof.
  intros s HI. by destruct (time_sleep_cases secs s) as [-> | ->].
Qed.

Lemma unlisted_visit inst :
  InstanceId inst ≠ j →
  keeps entry_is (visit_instance w args inst) (λ _, True).
Proof.
  intros Hne. apply keeps_of_final. intros s HI.
  destruct (visit_touches_only w args inst s) as [_ Hframe].
  unfold entry_is. by rewrite Hframe.
Qed.

Lemma unlisted_visit_reservation r :
  j ∉ map InstanceId (Instances r) →
  keeps entry_is (visit_reservation w args r) (λ _, True).
Proof.
  intros Hj. unfold visit_reservation.
  eapply keeps_bind; [apply unlisted_emit|]. intros _ _.
  apply keeps_for_each. intros inst Hinst. apply unlisted_visit.
  intros Heq. apply Hj. rewrite <- Heq. by apply list_elem_of_fmap_2.
Qed.

Lemma unlisted_reservations rs :
  j ∉ listed_ids rs →
  keeps entry_is (for_each rs (visit_reservation w args)) (λ _, True).
Proof.
  intros Hj. apply keeps_for_each. intros r Hr.
  apply unlisted_visit_reservation. intros Hin. apply Hj.
  unfold listed_ids. apply list_elem_of_In, in_concat.
  exists (map InstanceId (Instances r)). split; [|by apply list_elem_of_In].
  apply (in_map (λ r, map InstanceId (Instances r))). by apply list_elem_of_In.
Qed.

End Unlisted.

(** X8.  A cycle changes [last_update] only for the instances its
    listing returned: the entry of any other instance, one that lost its
    tag or was terminated for instance, is after the cycle what it was
    before, and so is every entry when the listing fails. *)
Theorem cycle_leaves_unlisted_instances_alone w args s j :
  (∀ rs, listed w args s = Ok rs → j ∉ listed_ids rs) →
  last_update (final (cycle w args s)) !! j = last_update s !! j.
Proof.
  intros Hj. destruct (listed w args s) as [rs|e] eqn:Hlist.
  - rewrite (cycle_listed w args s rs Hlist).
    apply (keeps_final (λ s', last_update s' !! j = last_update s !! j)
             _ (λ _, True)); [|done].
    eapply keeps_bind;
      [apply (unlisted_reservations w args j (last_update s !! j) rs (Hj rs eq_refl))|].
    intros _ _. unfold finish_cycle, logging. simpl.
    eapply keeps_bind with (Q := λ _, True); [by apply keeps_ret|]. intros _ _.
    eapply keeps_bind with (Q := λ _, True); [by apply keeps_ret|]. intros _ _.
    eapply keeps_bind; [apply (unlisted_emit j (last_update s !! j))|].
    intros _ _. apply (unlisted_time_sleep j (last_update s !! j)).
  - rewrite (cycle_listing_failed w args s e Hlist).
    apply (keeps_final (λ s', last_update s' !! j = last_update s !! j)
             _ (λ _, True)); [|done].
    apply (unlisted_time_sleep j (last_update s !! j)).
Qed.

(** X8, witness: only [i-001] is listed, the entry of [i-002] stays. *)
Lemma cycle_leaves_unlisted_instances_alone_witness :
  let s := recorded seen_T1 "i-002" T0 in
  last_update (final (cycle same_second_world sample_args s)) !! "i-002" = Some T0.
Proof.
  intros s.
  rewrite (cycle_leaves_unlisted_instances_alone same_second_world sample_args s
             "i-002"); [reflexivity|].
  intros rs [= <-]. unfold listed_ids. simpl.
  apply not_elem_of_cons. split; [done|apply not_elem_of_nil].
Defined.

(** ** Two consoles within one second *)

(** X9.  The name of a local file keeps the timestamp up to the second,
    the S3 key keeps it whole.  So when the console of an instance is
    refreshed within the second of the one last seen, the new output goes
    to S3 under a key of its own, and to the very file the visit of the
    earlier console has written, whose content it replaces. *)
Theorem same_second_consoles_share_a_file w args inst s r out t1 :
  last_update s !! InstanceId inst = Some t1 →
  fetched w s (InstanceId inst) = Ok r →
  same_second t1 (Timestamp r) →
  microsecond t1 ≠ microsecond (Timestamp r) →
  valid_datetime t1 → valid_datetime (Timestamp r) →
  Output r = Some out →
  file args = true →
  let i := InstanceId inst in
  let t := Timestamp r in
  let s2 := before_file w args s i t out in
  open_answer w s2 (local_name i t) i = Ok tt →
  print_answer w s2 (local_name i t) i out = Ok tt →
  let s' := final (visit_instance w args inst s) in
  local_name i t1 = local_name i t ∧
  i +:+ "/" +:+ datetime_str t1 ≠ i +:+ "/" +:+ datetime_str t ∧
  archive_writes (new_entries s s')
    = [(bucket args, i +:+ "/" +:+ datetime_str t, out)] ∧
  files s' !! local_name i t1 = Some (out +:+ newline).
Proof.
  intros Hseen Hfetch (Ey & Emo & Ed & Eh & Emi & Esec) Hus Hv1 Hv Hout Hfile
    i t s2 Hopen Hprint s'. subst i t s2 s'.
  assert (local_name (InstanceId inst) t1
          = local_name (InstanceId inst) (Timestamp r)) as Hname.
  { unfold local_name, stamp. by rewrite Ey, Emo, Ed, Eh, Emi, Esec. }
  assert (t1 ≠ Timestamp r) as Hne by (intros ->; done).
  assert (last_update s !! InstanceId inst ≠ Some (Timestamp r)) as Hnew
    by (rewrite Hseen; congruence).
  split; [done|]. split.
  { intros Hkey. by apply archive_key_inj in Hkey as [_ ?]. }
  destruct (visit_output_trace w args inst s r out Hfetch Hnew Hout)
    as (_ & Hput & _).
  split; [done|].
  rewrite (visit_file_written w args inst s r out
             Hfetch Hnew Hout Hfile Hopen Hprint).
  simpl. by rewrite Hname, lookup_insert_eq.
Qed.

(** X9, witness: [i-001] seen at [T1], refreshed 250 microseconds later. *)
Lemma same_second_consoles_share_a_file_witness :
  let s := written seen_T1 "i-001_2019-03-05T070809" ("panic log A" +:+ newline) in
  files (final (visit_instance same_second_world sample_args i001 s))
    !! "i-001_2019-03-05T070809"
  = Some ("panic log A, continued" +:+ newline).
Proof.
  intros s.
  assert (valid_datetime T1 ∧ valid_datetime T1_later) as [Hv1 Hv2]
    by (by vm_compute).
  destruct (same_second_consoles_share_a_file same_second_world sample_args
              i001 s (mk_response T1_later (Some "panic log A, continued"))
              "panic log A, continued" T1
              eq_refl eq_refl ltac:(by repeat split) ltac:(by vm_compute)
              Hv1 Hv2 eq_refl eq_refl eq_refl eq_refl)
    as (_ & _ & _ & Hfile).
  exact Hfile.
Defined.

(** ** Delivering again, and delivering in part *)

(** X11.  Delivering a console again changes nothing in S3: when the
    object of an (instance, timestamp) pair is already stored with the
    same output, as after a restart, which empties [last_update], the
    visit writes it once more and the objects are what they were. *)
Theorem delivering_again_leaves_the_bucket_unchanged w args inst s r out :
  fetched w s (InstanceId inst) = Ok r →
  last_update s !! InstanceId inst ≠ Some (Timestamp r) →
  Output r = Some out →
  let key := InstanceId inst +:+ "/" +:+ datetime_str (Timestamp r) in
  objects s !! (bucket args, key) = Some out →
  let s' := final (visit_instance w args inst s) in
  archive_writes (new_entries s s') = [(bucket args, key, out)] ∧
  objects s' = objects s.
Proof.
  intros Hfetch Hnew Hout key Hstored s'. subst key s'.
  destruct (visit_output_trace w args inst s r out Hfetch Hnew Hout)
    as (_ & Hput & _).
  split; [done|].
  rewrite (visit_output_objects w args inst s r out Hfetch Hnew Hout).
  rewrite before_file_objects.
  destruct (put_answer w _ _ _ _ _); [|done]. by apply insert_id.
Qed.

(** X11, witness: the process is started again after it delivered the
    console of [i-001]. *)
Lemma delivering_again_leaves_the_bucket_unchanged_witness :
  let s1 := final (visit_instance calm_world s3_only_args i001 initial_state) in
  let restarted := archived initial_state "console-logs"
                     "i-001/2019-03-05 07:08:09+00:00" "panic log A" in
  objects s1 = objects restarted ∧
  objects (final (visit_instance calm_world s3_only_args i001 restarted))
  = objects restarted.
Proof.
  intros s1 restarted. split; [reflexivity|].
  destruct (delivering_again_leaves_the_bucket_unchanged calm_world s3_only_args
              i001 restarted (mk_response T1 (Some "panic log A")) "panic log A"
              eq_refl ltac:(by vm_compute) eq_refl eq_refl) as [_ Hobj].
  exact Hobj.
Defined.

(** X12.  The sinks are served in the order S3, standard output, local
    file.  So when the local file cannot be opened and the exception ends
    the process, the S3 write of that console has been made (and the
    object is stored when S3 accepted it), the block has been printed
    when [args.print], and the timestamp is in [last_update]. *)
Theorem file_failure_comes_after_the_other_sinks w args inst s r out e :
  fetched w s (InstanceId inst) = Ok r →
  last_update s !! InstanceId inst ≠ Some (Timestamp r) →
  Output r = Some out →
  file args = true →
  let i := InstanceId inst in
  let t := Timestamp r in
  open_answer w (before_file w args s i t out) (local_name i t) i = Err e →
  let o := visit_instance w args inst s in
  let new := new_entries s (final o) in
  returns o = false ∧
  archive_writes new = [(bucket args, i +:+ "/" +:+ datetime_str t, out)] ∧
  stdout_lines new = (if print args then print_block i t out else []) ∧
  file_prints new = [] ∧
  files (final o) = files s ∧
  last_update (final o) !! i = Some t ∧
  (put_answer w (after_update s i t) (bucket args) i t out = Ok tt →
     objects (final o) !! (bucket args, i +:+ "/" +:+ datetime_str t) = Some out).
Proof.
  intros Hfetch Hnew Hout Hfile i t Hopen o new. subst i t o new.
  destruct (visit_output_trace w args inst s r out Hfetch Hnew Hout)
    as (_ & Hput & Hprint & _).
  pose proof (visit_records w args inst s r Hfetch) as Hlast.
  pose proof (visit_output_objects w args inst s r out Hfetch Hnew Hout) as Hobj.
  rewrite before_file_objects in Hobj.
  destruct (before_file_trace w args s (InstanceId inst) (Timestamp r) out)
    as (es & Htr & _ & _ & _ & Hprints & _).
  pose proof (before_file_files w args s (InstanceId inst) (Timestamp r) out)
    as Hfiles.
  rewrite (visit_with_output w args inst s r out Hfetch Hnew Hout) in *.
  rewrite Hfile in *. simpl in *. rewrite out_to_file_eq in *. simpl in *.
  rewrite Hopen in *. simpl in *.
  split; [done|]. split; [done|]. split; [done|]. split.
  { rewrite (new_entries_app _ _ (es ++ open_entries _ _))
      by (simpl; by rewrite Htr, <- app_assoc).
    unfold file_prints in *. by rewrite omap_app, Hprints. }
  split; [done|]. split; [done|].
  intros Hok. rewrite Hobj, Hok. by rewrite lookup_insert_eq.
Qed.

(** X12, witness: no file can be opened, S3 works. *)
Lemma file_failure_comes_after_the_other_sinks_witness :
  let o := visit_instance readonly_world sample_args i001 initial_state in
  returns o = false ∧
  objects (final o) !! ("console-logs", "i-001/2019-03-05 07:08:09+00:00")
  = Some "panic log A".
Proof.
  destruct (file_failure_comes_after_the_other_sinks readonly_world sample_args
              i001 initial_state (mk_response T1 (Some "panic log A"))
              "panic log A" "Permission denied"
              eq_refl ltac:(by vm_compute) eq_refl eq_refl eq_refl)
    as (Hret & _ & _ & _ & _ & _ & Hobj).
  split; [exact Hret|]. by apply Hobj.
Defined.
